(** * BrushableAreaChart: the liquidity-depth chart and its brush

    A shallow embedding of
    [src/components/LiquidityDepth/BrushableAreaChart.tsx]: the scale
    builder [getScales], the brush listener [brushed], the zoom listener
    [zoomed], the two effects of the component and the render pass that
    draws with d3.

    Numbers.  A JavaScript number is modelled as a rational or [NaN]:
    arithmetic is exact (no rounding) and there are no infinities.  The
    component only divides inside d3's [normalize], which tests the divisor
    first, and by the zoom factor, which the zoom behaviour keeps inside its
    scale extent.

    Libraries.  d3 (array, scale, brush, zoom), lodash.isequal and React are
    not part of the repository; the parts the component calls are modelled
    after their documented behaviour, each under its own name:
    d3-array [min]/[max], d3-scale [scaleLinear] (its [normalize], [bimap]
    and [invert]), d3-zoom's [rescaleX] and scale extent, d3-brush's
    [brush.move] (which dispatches start, brush and end to the listener),
    lodash's [isEqual] and React's commit of a render with its effects. *)

From Stdlib Require Import String.
From Stdlib Require Import QArith Qminmax Lqa.
From Stdlib Require Import List Bool ZArith Lia.
Import ListNotations.

Local Open Scope Q_scope.

(* ===================================================================== *)
(** ** JavaScript numbers *)
(* ===================================================================== *)

Module JS.

(** A number: a finite value or NaN. *)
Inductive num : Type :=
| NaN : num
| Fin : Q -> num.

(** [Number.isNaN]. *)
Definition isNaN (n : num) : bool :=
  match n with NaN => true | Fin _ => false end.

(** Truthiness of a number: neither [0] nor [NaN]. *)
Definition truthy (n : num) : bool :=
  match n with NaN => false | Fin q => negb (Qeq_bool q 0) end.

Definition add (a b : num) : num :=
  match a, b with Fin x, Fin y => Fin (x + y) | _, _ => NaN end.

Definition sub (a b : num) : num :=
  match a, b with Fin x, Fin y => Fin (x - y) | _, _ => NaN end.

Definition mul (a b : num) : num :=
  match a, b with Fin x, Fin y => Fin (x * y) | _, _ => NaN end.

(** Division.  A zero divisor has no finite quotient; the model has no
    infinities and answers [NaN] there. *)
Definition div (a b : num) : num :=
  match a, b with
  | Fin x, Fin y => if Qeq_bool y 0 then NaN else Fin (x / y)
  | _, _ => NaN
  end.

(** [a < b]: false as soon as one side is NaN. *)
Definition ltb (a b : num) : bool :=
  match a, b with
  | Fin x, Fin y => Qle_bool x y && negb (Qeq_bool x y)
  | _, _ => false
  end.

(** [a >= b]. *)
Definition geb (a b : num) : bool :=
  match a, b with Fin x, Fin y => Qle_bool y x | _, _ => false end.

(** [+x] on a possibly undefined value: [+undefined] is NaN. *)
Definition to_num (o : option num) : num :=
  match o with Some n => n | None => NaN end.

(** Equality of numbers as values (lodash's [eq], SameValueZero: NaN
    equals NaN). *)
Definition same_value (a b : num) : bool :=
  match a, b with
  | NaN, NaN => true
  | Fin x, Fin y => Qeq_bool x y
  | _, _ => false
  end.

(** The same as a proposition, and the order on finite numbers. *)
Definition num_eq (a b : num) : Prop :=
  match a, b with
  | NaN, NaN => True
  | Fin x, Fin y => x == y
  | _, _ => False
  end.

Definition le (a b : num) : Prop :=
  match a, b with Fin x, Fin y => x <= y | _, _ => False end.

Definition finite (a : num) : Prop :=
  match a with Fin _ => True | NaN => False end.

End JS.

Declare Scope num_scope.
Delimit Scope num_scope with num.
Infix "+" := JS.add : num_scope.
Infix "-" := JS.sub : num_scope.
Infix "*" := JS.mul : num_scope.
Infix "/" := JS.div : num_scope.
Infix "==" := JS.num_eq (at level 70, no associativity) : num_scope.
Infix "<=" := JS.le : num_scope.

(** Pairs of numbers: a pixel selection or a domain interval. *)
Definition pair_eq (a b : JS.num * JS.num) : Prop :=
  (fst a == fst b)%num /\ (snd a == snd b)%num.

Definition ordered (a : JS.num * JS.num) : Prop := (fst a <= snd a)%num.

(* ===================================================================== *)
(** ** d3: array, linear scale, zoom transform *)
(* ===================================================================== *)

Module D3.

Import JS.

(** d3-array [min(values, valueof)]: the least value, skipping NaN;
    [None] (undefined) when no value qualifies. *)
Definition min_step (acc : option num) (v : num) : option num :=
  match acc with
  | Some m => if ltb v m then Some v else acc
  | None => if geb v v then Some v else None
  end.

Definition min {A : Type} (values : list A) (valueof : A -> num) : option num :=
  fold_left (fun acc d => min_step acc (valueof d)) values None.

(** d3-array [max(values, valueof)]. *)
Definition max_step (acc : option num) (v : num) : option num :=
  match acc with
  | Some m => if ltb m v then Some v else acc
  | None => if geb v v then Some v else None
  end.

Definition max {A : Type} (values : list A) (valueof : A -> num) : option num :=
  fold_left (fun acc d => max_step acc (valueof d)) values None.

(** A continuous linear scale with a two-point domain and range. *)
Record Scale : Type := mkScale {
  domain : num * num;
  range : num * num
}.

(** d3-scale [normalize(a, b)]: [x -> (x - a) / (b - a)], or a constant
    when the span is zero or NaN. *)
Definition normalize (a b : num) (x : num) : num :=
  let span := (b - a)%num in
  if truthy span then ((x - a) / span)%num
  else if isNaN span then NaN else Fin (1 # 2).

(** d3-interpolate [interpolateNumber(a, b)(t)]. *)
Definition interpolateNumber (a b t : num) : num :=
  (a * (Fin 1 - t) + b * t)%num.

(** d3-scale [bimap(domain, range, interpolate)]. *)
Definition bimap (dom rng : num * num) (x : num) : num :=
  let '(d0, d1) := dom in
  let '(r0, r1) := rng in
  if ltb d1 d0 then interpolateNumber r1 r0 (normalize d1 d0 x)
  else interpolateNumber r0 r1 (normalize d0 d1 x).

(** [scale(x)]: [unknown] (undefined) on NaN. *)
Definition call (s : Scale) (x : num) : option num :=
  if isNaN x then None else Some (bimap (domain s) (range s) x).

(** [scale.invert(y)]. *)
Definition invert (s : Scale) (y : num) : num :=
  bimap (range s) (domain s) y.

(** [scale.domain(d)] as a setter. *)
Definition set_domain (s : Scale) (d : num * num) : Scale :=
  mkScale d (range s).

(** d3-zoom's transform [{k, x, y}]. *)
Record ZoomTransform : Type := mkTransform {
  k : Q;
  tx : Q;
  ty : Q
}.

(** [transform.invertX(x)]. *)
Definition invertX (t : ZoomTransform) (x : num) : num :=
  ((x - Fin (tx t)) / Fin (k t))%num.

(** [transform.rescaleX(x)]: a copy of the scale whose domain is the
    range sent back through the transform and the scale. *)
Definition rescaleX (t : ZoomTransform) (s : Scale) : Scale :=
  let '(r0, r1) := range s in
  mkScale (invert s (invertX t r0), invert s (invertX t r1)) (range s).

(** The zoom behaviour keeps the factor inside its scale extent:
    [k = Math.max(extent[0], Math.min(extent[1], k))]. *)
Definition constrain_scale (extent : Q * Q) (t : ZoomTransform) : ZoomTransform :=
  mkTransform (Qmax (fst extent) (Qmin (snd extent) (k t))) (tx t) (ty t).

End D3.

(* ===================================================================== *)
(** ** The component's data *)
(* ===================================================================== *)

(** [ChartEntry] of [./hooks]: the two fields the accessors read. *)
Record ChartEntry : Type := mkEntry {
  activeLiquidity : JS.num;
  price0 : JS.num
}.

Record Dimensions : Type := mkDimensions {
  width : JS.num;
  height : JS.num
}.

Record Margins : Type := mkMargins {
  top : JS.num;
  right : JS.num;
  bottom : JS.num;
  left : JS.num
}.

(** A JavaScript array [[number, number]]: its identity (the address the
    reference points to) and its two elements.  [===] and [Object.is]
    compare the identity, lodash's [isEqual] the elements. *)
Record Arr : Type := mkArr {
  addr : nat;
  lo : JS.num;
  hi : JS.num
}.

Definition elements (a : Arr) : JS.num * JS.num := (lo a, hi a).

(** [a === b] on [[number, number] | undefined]. *)
Definition same_ref (a b : option Arr) : bool :=
  match a, b with
  | None, None => true
  | Some x, Some y => Nat.eqb (addr x) (addr y)
  | _, _ => false
  end.

(** lodash [isEqual] on [[number, number] | undefined]: the same
    reference, or arrays with equal elements. *)
Definition isEqual (a b : option Arr) : bool :=
  match a, b with
  | None, None => true
  | Some x, Some y =>
      Nat.eqb (addr x) (addr y)
      || (JS.same_value (lo x) (lo y) && JS.same_value (hi x) (hi y))
  | _, _ => false
  end.

(** The props the behaviour depends on ([id], [styles] and [brushLabels]
    only name and colour what is drawn).  [dimensions] may be missing at
    run time: the pass then measures the wrapper. *)
Record Props : Type := mkProps {
  series : list ChartEntry;
  current : JS.num;
  dimensions : option Dimensions;
  margins : Margins;
  brushDomain : option Arr
}.

Definition xAccessor (d : ChartEntry) : JS.num := price0 d.
Definition yAccessor (d : ChartEntry) : JS.num := activeLiquidity d.

Record Scales : Type := mkScales {
  xScale : D3.Scale;
  yScale : D3.Scale
}.

Definition getScales (series : list ChartEntry) (width height : JS.num)
    (margin : Margins) : Scales :=
  {| xScale :=
       D3.mkScale
         (JS.to_num (D3.min series xAccessor), JS.to_num (D3.max series xAccessor))
         (left margin, (width - right margin)%num);
     yScale :=
       D3.mkScale
         (JS.Fin 0, JS.to_num (D3.max series yAccessor))
         ((height - bottom margin)%num, top margin) |}.

(* ===================================================================== *)
(** ** The drawing tree *)
(* ===================================================================== *)

(** The datum bound to a brush handle: [{type: 'w'}] or [{type: 'e'}]. *)
Inductive HandleType : Type := W | E.

(** The [transform] attribute [translate(x,0) scale(e, 1)] of a handle;
    [x] is [selection[i]], undefined past the second handle. *)
Record HandleTransform : Type := mkHandleTransform {
  translate_x : option JS.num;
  scale_x : Z
}.

(** A [path.v-brush-handle] element; [path_height] is the height its
    outline [brushHandlePath(height)] was drawn for. *)
Record Handle : Type := mkHandle {
  datum : HandleType;
  display : option string;
  transform : option HandleTransform;
  path_height : JS.num
}.

(** What the [zoomed] listener closes over. *)
Record ZoomClosure : Type := mkZoomClosure {
  zc_localSelection : option Arr;
  zc_xScale : D3.Scale
}.

(** The svg, as far as the pass writes it. *)
Record Dom : Type := mkDom {
  boundingRect : Dimensions;
  svgSize : option (JS.num * JS.num);
  areaPath : option (list (option JS.num * option JS.num * option JS.num));
  currentLine : option (option JS.num * JS.num);
  xAxis : option (JS.num * D3.Scale);
  zoomListener : option ZoomClosure;
  brushListener : option D3.Scale;
  handles : list Handle
}.

Definition emptyDom (rect : Dimensions) : Dom :=
  mkDom rect None None None None None None [].

Definition set_handles (d : Dom) (hs : list Handle) : Dom :=
  mkDom (boundingRect d) (svgSize d) (areaPath d) (currentLine d) (xAxis d)
        (zoomListener d) (brushListener d) hs.

(** Uncaught errors. *)
Inductive JSError : Type :=
| ReferenceError : string -> JSError
| TypeError : string -> JSError.

(** A brush event as the listener receives it. *)
Inductive EventType : Type := Start | Brush | End.

Record BrushEvent : Type := mkBrushEvent {
  type : EventType;
  selection : option (JS.num * JS.num)
}.

(** The invocations of [onBrushDomainChange], oldest first. *)
Definition Calls : Type := list (JS.num * JS.num).

(* ===================================================================== *)
(** ** brushed *)
(* ===================================================================== *)

(** [.attr('display', 'none')] on every handle. *)
Definition hide_handle (h : Handle) : Handle :=
  mkHandle (datum h) (Some "none"%string) (transform h) (path_height h).

(** [.attr('display', null).attr('transform', (d, i) => ...)] on the
    [i]-th handle. *)
Definition move_handle (sel : JS.num * JS.num) (i : nat) (h : Handle) : Handle :=
  let e := match datum h with E => 1%Z | W => (-1)%Z end in
  mkHandle (datum h) None
           (Some (mkHandleTransform (nth_error [fst sel; snd sel] i) e))
           (path_height h).

Fixpoint mapi_from {A B : Type} (f : nat -> A -> B) (i : nat) (l : list A) : list B :=
  match l with
  | [] => []
  | x :: r => f i x :: mapi_from f (S i) r
  end.

Definition brushed (xScale : D3.Scale) (ev : BrushEvent) (d : Dom) (calls : Calls)
    : Dom * Calls :=
  match selection ev with
  | None => (set_handles d (map hide_handle (handles d)), calls)
  | Some (s0, s1) =>
      if JS.isNaN s0 || JS.isNaN s1 then
        (set_handles d (map hide_handle (handles d)), calls)
      else
        let calls' :=
          match type ev with
          | End => calls ++ [(D3.invert xScale s0, D3.invert xScale s1)]
          | _ => calls
          end in
        (set_handles d (mapi_from (move_handle (s0, s1)) 0 (handles d)), calls')
  end.

(* ===================================================================== *)
(** ** The render pass (the second effect) *)
(* ===================================================================== *)

(** d3-brush [brush.move(group, selection)] outside a transition: the
    selection becomes the brush's and start, brush and end are dispatched
    to the brush's listener, each with that selection. *)
Definition brush_move (listener : BrushEvent -> Dom -> Calls -> Dom * Calls)
    (sel : JS.num * JS.num) (d : Dom) (calls : Calls) : Dom * Calls :=
  let '(d1, c1) := listener (mkBrushEvent Start (Some sel)) d calls in
  let '(d2, c2) := listener (mkBrushEvent Brush (Some sel)) d1 c1 in
  listener (mkBrushEvent End (Some sel)) d2 c2.

(** [.data([{type:'w'},{type:'e'}]).enter().append('path')]: the join is by
    index; the data are bound again to the handles that exist and a path
    is appended for each datum that has none. *)
Definition new_handle (t : HandleType) (height : JS.num) : Handle :=
  mkHandle t None None height.

Definition rebind (t : HandleType) (h : Handle) : Handle :=
  mkHandle t (display h) (transform h) (path_height h).

Definition enter_handles (height : JS.num) (hs : list Handle) : list Handle :=
  match hs with
  | [] => [new_handle W height; new_handle E height]
  | [h0] => [rebind W h0; new_handle E height]
  | h0 :: h1 :: rest => rebind W h0 :: rebind E h1 :: rest
  end.

(** The scales of a pass: [getScales], then the zoom transform applied
    to the horizontal domain. *)
Definition passScales (p : Props) (zoom : option D3.ZoomTransform) (d : Dom) : Scales :=
  let dim := match dimensions p with Some dm => dm | None => boundingRect d end in
  let sc := getScales (series p) (width dim) (height dim) (margins p) in
  match zoom with
  | Some t =>
      mkScales (D3.set_domain (xScale sc) (D3.domain (D3.rescaleX t (xScale sc))))
               (yScale sc)
  | None => sc
  end.

(** The body of the second effect, run with the values the render closed
    over: the props, [previousDomain], [localSelection] and
    [currentZoomState].  Effects run after the component is mounted, when
    [wrapperRef] and [svgRef] are set, so that the guard reduces to the
    test of the series.  It returns the tree, the callback invocations and
    the error that ended the pass, if any. *)
Definition renderPass (p : Props) (previousDomain localSelection : option Arr)
    (currentZoomState : option D3.ZoomTransform) (d : Dom) (calls : Calls)
    : Dom * Calls * option JSError :=
  match series p with
  | [] => (d, calls, None)
  | _ :: _ =>
      let dim := match dimensions p with Some dm => dm | None => boundingRect d end in
      let sc := passScales p currentZoomState d in
      let xs := xScale sc in
      let ys := yScale sc in
      (* root svg, area, current price, axis, zoom *)
      let d1 :=
        mkDom (boundingRect d)
              (Some (width dim, height dim))
              (Some (map (fun e => (D3.call xs (xAccessor e),
                                    D3.call ys (JS.Fin 0),
                                    D3.call ys (yAccessor e))) (series p)))
              (Some (D3.call xs (current p), height dim))
              (Some ((height dim - bottom (margins p))%num, xs))
              (Some (mkZoomClosure localSelection xs))
              (brushListener d) (handles d) in
      (* initial position + retaining position on resize *)
      let branch :=
        match brushDomain p with
        | Some _ => same_ref previousDomain (brushDomain p)
        | None => false
        end in
      let moved :=
        if branch then
          (* .call(brush) *)
          let d2 := mkDom (boundingRect d1) (svgSize d1) (areaPath d1)
                          (currentLine d1) (xAxis d1) (zoomListener d1)
                          (Some xs) (handles d1) in
          (* .call(brush.move, localSelection.map(xScale)) *)
          match localSelection with
          | None => inr (d2, TypeError "localSelection.map")
          | Some l =>
              inl (brush_move (brushed xs)
                              (JS.to_num (D3.call xs (lo l)), JS.to_num (D3.call xs (hi l)))
                              d2 calls)
          end
        else inl (d1, calls) in
      match moved with
      | inr (d2, err) => (d2, calls, Some err)
      | inl (d3, calls') =>
          (set_handles d3 (enter_handles (height dim) (handles d3)), calls', None)
      end
  end.

(* ===================================================================== *)
(** ** zoomed *)
(* ===================================================================== *)

(** The state of the component's hooks.  [previousRef] is the ref of
    [usePrevious]; [lastDeps] are the dependencies of the last commit
    ([None] before the first one). *)
Record Deps : Type := mkDeps {
  dep_brushDomain : option Arr;
  dep_localSelection : option Arr;
  dep_zoomState : option D3.ZoomTransform;
  dep_previousDomain : option Arr
}.

Record Hooks : Type := mkHooks {
  currentZoomState : option D3.ZoomTransform;
  localSelection : option Arr;
  previousRef : option Arr;
  lastDeps : option Deps
}.

(** [zoomed({ transform })], run with the [localSelection] its pass closed
    over.  [currentSelection] is bound nowhere in the module: evaluating it
    throws, after [setCurrentZoomState] has taken the transform. *)
Definition zoomed (cl : ZoomClosure) (t : D3.ZoomTransform) (h : Hooks)
    : Hooks * option JSError :=
  let h1 := mkHooks (Some t) (localSelection h) (previousRef h) (lastDeps h) in
  match zc_localSelection cl with
  | Some _ => (h1, Some (ReferenceError "currentSelection"))
  | None => (h1, None)
  end.

(** [zoom().scaleExtent([0.5, 5])]. *)
Definition scaleExtent : Q * Q := (1 # 2, 5).

(* ===================================================================== *)
(** ** The component: renders, effects, events *)
(* ===================================================================== *)

Record Component : Type := mkComponent {
  hooks : Hooks;
  dom : Dom;
  calls : Calls;
  errors : list JSError;
  unmounted : bool
}.

Definition initial (rect : Dimensions) : Component :=
  mkComponent (mkHooks None None None None) (emptyDom rect) [] [] false.

(** The first effect: keeps the local selection in sync with the brush
    domain.  The result is the next [localSelection]. *)
Definition syncEffect (brushDomain localSelection : option Arr) : option Arr :=
  match brushDomain with
  | Some _ => if negb (isEqual brushDomain localSelection) then brushDomain
              else localSelection
  | None => localSelection
  end.

(** [Object.is] on the zoom state: d3-zoom hands out a new transform
    exactly when a component of it changes. *)
Definition same_transform (a b : option D3.ZoomTransform) : bool :=
  match a, b with
  | None, None => true
  | Some s, Some t =>
      Qeq_bool (D3.k s) (D3.k t) && Qeq_bool (D3.tx s) (D3.tx t)
      && Qeq_bool (D3.ty s) (D3.ty t)
  | _, _ => false
  end.

(** Modelled from the spec: [hooks/usePrevious] is not among the sources.
    It keeps a one-slot history of its argument: a ref that an effect with
    dependency [[value]] overwrites after the render, and whose content at
    render time is what the hook returns. *)
Definition usePrevious_read (h : Hooks) : option Arr := previousRef h.

Definition usePrevious_effect (changed : bool) (value : option Arr) (h : Hooks)
    : option Arr :=
  if changed then value else previousRef h.

(** One render of the component with props [p] followed by its effects, in
    the order of the hooks.  [other] says whether a dependency of the
    second effect outside this model ([series], [current], [dimensions],
    [margins], [styles], [id], [onBrushDomainChange]) changed identity.  An
    error thrown by an effect unmounts the component. *)
Definition commit (p : Props) (other : bool) (c : Component) : Component :=
  if unmounted c then c else
  let h := hooks c in
  let previousDomain := usePrevious_read h in
  let local := localSelection h in
  let zoom := currentZoomState h in
  let first := match lastDeps h with None => true | Some _ => false end in
  let changed (f : Deps -> bool) :=
    match lastDeps h with None => true | Some ds => negb (f ds) end in
  let bd_changed := changed (fun ds => same_ref (dep_brushDomain ds) (brushDomain p)) in
  let local_changed := changed (fun ds => same_ref (dep_localSelection ds) local) in
  let zoom_changed := changed (fun ds => same_transform (dep_zoomState ds) zoom) in
  let prev_changed := changed (fun ds => same_ref (dep_previousDomain ds) previousDomain) in
  (* usePrevious *)
  let ref' := usePrevious_effect bd_changed (brushDomain p) h in
  (* first effect, deps [brushDomain, localSelection] *)
  let local' :=
    if bd_changed || local_changed then syncEffect (brushDomain p) local else local in
  (* second effect *)
  let '(d', calls', err) :=
    if first || other || bd_changed || local_changed || zoom_changed || prev_changed
    then renderPass p previousDomain local zoom (dom c) (calls c)
    else (dom c, calls c, None) in
  mkComponent
    (mkHooks zoom local' ref' (Some (mkDeps (brushDomain p) local zoom previousDomain)))
    d' calls'
    (match err with Some e => errors c ++ [e] | None => errors c end)
    (match err with Some _ => true | None => false end).

(** A state update is pending: the state differs from the one the last
    commit rendered. *)
Definition needs_render (c : Component) : bool :=
  negb (unmounted c) &&
  match lastDeps (hooks c) with
  | None => false
  | Some ds =>
      negb (same_ref (dep_localSelection ds) (localSelection (hooks c)))
      || negb (same_transform (dep_zoomState ds) (currentZoomState (hooks c)))
  end.

(** Re-render with the same props while a state update is pending. *)
Fixpoint rerender (fuel : nat) (p : Props) (c : Component) : option Component :=
  if needs_render c then
    match fuel with
    | O => None
    | S f => rerender f p (commit p false c)
    end
  else Some c.

(** A render requested by the parent, run until the state settles. *)
Definition render (fuel : nat) (p : Props) (other : bool) (c : Component)
    : option Component :=
  rerender fuel p (commit p other c).

(** A brush event reaches the listener of the brush last attached. *)
Definition brushEvent (ev : BrushEvent) (c : Component) : Component :=
  if unmounted c then c else
  match brushListener (dom c) with
  | None => c
  | Some xs =>
      let '(d', calls') := brushed xs ev (dom c) (calls c) in
      mkComponent (hooks c) d' calls' (errors c) false
  end.

(** A zoom event: the behaviour constrains the requested transform and
    calls the listener of the last pass. *)
Definition zoomEvent (req : D3.ZoomTransform) (c : Component) : Component :=
  if unmounted c then c else
  match zoomListener (dom c) with
  | None => c
  | Some cl =>
      let '(h', err) := zoomed cl (D3.constrain_scale scaleExtent req) (hooks c) in
      mkComponent h' (dom c) (calls c)
                  (match err with Some e => errors c ++ [e] | None => errors c end)
                  false
  end.

(** What can happen to a mounted component. *)
Inductive Input : Type :=
| Render : Props -> bool -> Input
| BrushEv : BrushEvent -> Input
| ZoomEv : D3.ZoomTransform -> Input.

Definition step (c : Component) (i : Input) : Component :=
  match i with
  | Render p other => commit p other c
  | BrushEv ev => brushEvent ev c
  | ZoomEv t => zoomEvent t c
  end.

Definition run (ins : list Input) (c : Component) : Component :=
  fold_left step ins c.

(** A drag gesture as the listener sees it: a start event, one brush
    event per pointer move, an end event. *)
Definition gesture (start : option (JS.num * JS.num))
    (moves : list (option (JS.num * JS.num)))
    (final : option (JS.num * JS.num)) : list BrushEvent :=
  mkBrushEvent Start start :: map (mkBrushEvent Brush) moves
    ++ [mkBrushEvent End final].

(** The listener applied to a sequence of events. *)
Definition dispatch (xs : D3.Scale) (evs : list BrushEvent) (d : Dom) (calls : Calls)
    : Dom * Calls :=
  fold_left (fun st ev => brushed xs ev (fst st) (snd st)) evs (d, calls).

(* ===================================================================== *)
(** ** Auxiliary notions and the scenario of the specification *)
(* ===================================================================== *)

(** What [bimap] computes on finite numbers, in the rationals. *)
Definition lin (d0 d1 r0 r1 x : Q) : Q :=
  if Qeq_bool d0 d1 then r0 * (1 - (1 # 2)) + r1 * (1 # 2)
  else r0 + (x - d0) / (d1 - d0) * (r1 - r0).

(** Every value read off the list is a number. *)
Definition all_finite {A : Type} (f : A -> JS.num) (l : list A) : Prop :=
  Forall (fun e => JS.finite (f e)) l.

Definition px (z : Z) : JS.num := JS.Fin (inject_Z z).

(** A series whose prices span [[0, 1000]], in a 500 x 300 chart with a
    bottom margin of 20. *)
Definition scenarioSeries : list ChartEntry :=
  [mkEntry (px 1) (px 0); mkEntry (px 5) (px 1000)].

Definition scenarioDimensions : Dimensions := mkDimensions (px 500) (px 300).

Definition scenarioMargins : Margins := mkMargins (px 0) (px 0) (px 20) (px 0).

Definition scenarioProps (bd : option Arr) : Props :=
  mkProps scenarioSeries (px 250) (Some scenarioDimensions) scenarioMargins bd.

(** The parent's array [[200, 600]], and the chart mounted with it and
    rendered until its state settled (two commits). *)
Definition domain_200_600 : Arr := mkArr 1 (px 200) (px 600).

Definition mountedChart : Component :=
  commit (scenarioProps (Some domain_200_600)) false
    (commit (scenarioProps (Some domain_200_600)) false
       (initial scenarioDimensions)).

(** The horizontal scale of the scenario, without zoom. *)
Definition scenarioScale : D3.Scale :=
  xScale (passScales (scenarioProps None) None (emptyDom scenarioDimensions)).

(** The guard of [brushed]: no selection, or a NaN bound. *)
Definition unusable (sel : option (JS.num * JS.num)) : bool :=
  match sel with
  | None => true
  | Some (s0, s1) => JS.isNaN s0 || JS.isNaN s1
  end.

(** A degenerate selection in the words of the specification: a NaN bound,
    or collapsed with [low == high]. *)
Definition degenerate (sel : JS.num * JS.num) : bool :=
  JS.isNaN (fst sel) || JS.isNaN (snd sel) || JS.same_value (fst sel) (snd sel).

Definition hidden (h : Handle) : Prop := display h = Some "none"%string.

(** Props with a series but zero-size dimensions. *)
Definition zeroSizeProps : Props :=
  mkProps scenarioSeries (px 250) (Some (mkDimensions (px 0) (px 0)))
          scenarioMargins None.

(** Renders requested by the parent one after the other, each run until
    the state settles. *)
Fixpoint renderAll (ps : list Props) (c : Component) : option Component :=
  match ps with
  | [] => Some c
  | p :: rest =>
      match render 2 p false c with
      | Some c' => renderAll rest c'
      | None => None
      end
  end.

(** A second array [[200, 600]], equal to the first by value only. *)
Definition domain_200_600_again : Arr := mkArr 3 (px 200) (px 600).

(** What every reachable state satisfies: the component is mounted, and
    once [usePrevious] has recorded a domain the local selection is set. *)
Definition synced (c : Component) : Prop :=
  unmounted c = false
  /\ (forall b, previousRef (hooks c) = Some b ->
                exists l, localSelection (hooks c) = Some l).

(** A series sorted ascending by price: at least one entry, every price a
    number, each price at most the next. *)
Fixpoint ascending (l : list JS.num) : Prop :=
  match l with
  | [] => True
  | a :: r =>
      match r with
      | [] => JS.finite a
      | b :: _ => (a <= b)%num /\ ascending r
      end
  end.

Definition sorted_by_price (s : list ChartEntry) : Prop :=
  s <> [] /\ ascending (map xAccessor s).

(** The zoom state holds a factor of the scale extent, if it holds one. *)
Definition within_extent (z : option D3.ZoomTransform) : Prop :=
  match z with
  | Some t => fst scaleExtent <= D3.k t <= snd scaleExtent
  | None => True
  end.

(** The parent passes ordered pairs. *)
Definition ordered_input (i : Input) : Prop :=
  match i with
  | Render p _ => forall b, brushDomain p = Some b -> ordered (elements b)
  | _ => True
  end.

(** A scale that ascends in domain and in range. *)
Definition ascending_scale (xs : D3.Scale) : Prop :=
  exists d0 d1 r0 r1,
    D3.domain xs = (JS.Fin d0, JS.Fin d1)
    /\ D3.range xs = (JS.Fin r0, JS.Fin r1)
    /\ d0 <= d1 /\ r0 <= r1.

(** The geometry of the claim: the series sorted ascending by price and
    [margins.left <= width - margins.right]. *)
Definition ascending_geometry (p : Props) : Prop :=
  exists dm,
    dimensions p = Some dm
    /\ sorted_by_price (series p)
    /\ (left (margins p) <= width dm - right (margins p))%num.

(** Every render that draws has that geometry. *)
Definition ascending_input (i : Input) : Prop :=
  match i with
  | Render p _ => series p = [] \/ ascending_geometry p
  | _ => True
  end.

(** The listener attached to the brush, if any, inverts through an
    ascending scale. *)
Definition listener_ascending (c : Component) : Prop :=
  forall xs, brushListener (dom c) = Some xs -> ascending_scale xs.

Definition local_ordered (c : Component) : Prop :=
  forall l, localSelection (hooks c) = Some l -> ordered (elements l).

(** The pixel positions of the handles, read from their [transform], and
    the domain values they stand for under a scale. *)
Definition handle_pixels (d : Dom) : list JS.num :=
  map (fun h => match transform h with
                | Some t => JS.to_num (translate_x t)
                | None => JS.NaN
                end) (handles d).

Definition reinverted (xs : D3.Scale) (d : Dom) : list JS.num :=
  map (D3.invert xs) (handle_pixels d).

(** The geometry gives an invertible horizontal scale: the prices and the
    horizontal range each span more than a point. *)
Definition invertible_geometry (p : Props) : Prop :=
  exists dm a b r0 r1,
    dimensions p = Some dm
    /\ D3.min (series p) xAccessor = Some (JS.Fin a)
    /\ D3.max (series p) xAccessor = Some (JS.Fin b)
    /\ left (margins p) = JS.Fin r0
    /\ (width dm - right (margins p))%num = JS.Fin r1
    /\ ~ a == b /\ ~ r0 == r1.

(** The condition of the brush branch of the pass. *)
Definition brush_branch (p : Props) (previousDomain : option Arr) : bool :=
  match brushDomain p with
  | Some _ => same_ref previousDomain (brushDomain p)
  | None => false
  end.

(** The parent's array [[100, 200]] and the chart mounted with it. *)
Definition domain_100_200 : Arr := mkArr 2 (px 100) (px 200).

Definition chart_100_200 : Component :=
  commit (scenarioProps (Some domain_100_200)) false
    (commit (scenarioProps (Some domain_100_200)) false
       (initial scenarioDimensions)).

(** The same chart after the parent cleared [brushDomain]. *)
Definition chart_cleared : Component :=
  commit (scenarioProps None) false chart_100_200.

Definition zoom_in_twice : D3.ZoomTransform := D3.mkTransform 2 0 0.

(** The array is new to the component: it is neither the domain that
    [usePrevious] recorded nor the one of the last commit. *)
Definition unseen (b : Arr) (c : Component) : Prop :=
  same_ref (previousRef (hooks c)) (Some b) = false
  /\ (forall ds, lastDeps (hooks c) = Some ds ->
                 same_ref (dep_brushDomain ds) (Some b) = false).

(** What a commit makes of the hooks; the pass has no part in it. *)
Definition commit_hooks (p : Props) (h : Hooks) : Hooks :=
  let changed (f : Deps -> bool) :=
    match lastDeps h with None => true | Some ds => negb (f ds) end in
  let bd_changed := changed (fun ds => same_ref (dep_brushDomain ds) (brushDomain p)) in
  let local_changed :=
    changed (fun ds => same_ref (dep_localSelection ds) (localSelection h)) in
  mkHooks (currentZoomState h)
          (if bd_changed || local_changed
           then syncEffect (brushDomain p) (localSelection h)
           else localSelection h)
          (usePrevious_effect bd_changed (brushDomain p) h)
          (Some (mkDeps (brushDomain p) (localSelection h) (currentZoomState h)
                        (usePrevious_read h))).

(** An array whose elements descend, as the type [[number, number]]
    allows. *)
Definition domain_600_200 : Arr := mkArr 4 (px 600) (px 200).

(** A series whose prices span [[0, 2000]], and the mounted chart after
    the parent passed it together with a new array [[200, 600]]. *)
Definition widerSeries : list ChartEntry :=
  [mkEntry (px 1) (px 0); mkEntry (px 5) (px 2000)].

Definition rescaledChart : Component :=
  commit (mkProps widerSeries (px 250) (Some scenarioDimensions) scenarioMargins
                  (Some domain_200_600_again))
         true mountedChart.

(** The mounted chart after a drag from its selection to the pixels
    [[50, 100]]. *)
Definition draggedChart : Component :=
  run (map BrushEv (gesture (Some (px 50, px 50)) [Some (px 50, px 70)]
                            (Some (px 50, px 100))))
      mountedChart.

(** What one usable-or-not selection makes of the handles in [brushed]:
    hidden on a NaN bound, shown and moved otherwise. *)
Definition place (sel : JS.num * JS.num) (hs : list Handle) : list Handle :=
  if JS.isNaN (fst sel) || JS.isNaN (snd sel) then map hide_handle hs
  else mapi_from (move_handle sel) 0 hs.

(** A render without [brushDomain]. *)
Definition without_domain (i : Input) : Prop :=
  match i with
  | Render p _ => brushDomain p = None
  | _ => True
  end.

(** The array was the [brushDomain] of one of the renders. *)
Definition passed (b : Arr) (ins : list Input) : Prop :=
  exists p other, In (Render p other) ins /\ brushDomain p = Some b.

(** The height a pass draws for. *)
Definition passHeight (p : Props) (d : Dom) : JS.num :=
  height (match dimensions p with Some dm => dm | None => boundingRect d end).

(* ===================================================================== *)
(** ** Arithmetic of the linear scale *)
(* ===================================================================== *)

Lemma Qeq_bool_false_neq (x y : Q) : Qeq_bool x y = false -> ~ x == y.
Proof.
  intros H E. apply Qeq_bool_iff in E. congruence.
Qed.

Lemma Qeq_bool_sub_0 (x y : Q) : Qeq_bool (x - y) 0 = Qeq_bool x y.
Proof.
  destruct (Qeq_bool x y) eqn:E.
  - apply Qeq_bool_iff in E. apply Qeq_bool_iff. lra.
  - apply Qeq_bool_false_neq in E.
    destruct (Qeq_bool (x - y) 0) eqn:F; [|reflexivity].
    apply Qeq_bool_iff in F. exfalso. apply E. lra.
Qed.

Lemma Qeq_bool_sym (x y : Q) : Qeq_bool x y = Qeq_bool y x.
Proof.
  destruct (Qeq_bool y x) eqn:E.
  - apply Qeq_bool_iff in E. apply Qeq_bool_iff. symmetry. exact E.
  - apply Qeq_bool_false_neq in E.
    destruct (Qeq_bool x y) eqn:F; [|reflexivity].
    apply Qeq_bool_iff in F. exfalso. apply E. symmetry. exact F.
Qed.

Lemma bimap_fin (d0 d1 r0 r1 x : Q) :
  exists q,
    D3.bimap (JS.Fin d0, JS.Fin d1) (JS.Fin r0, JS.Fin r1) (JS.Fin x) = JS.Fin q
    /\ q == lin d0 d1 r0 r1 x.
Proof.
  unfold D3.bimap, D3.normalize, D3.interpolateNumber, lin, JS.ltb, JS.truthy,
    JS.div, JS.sub, JS.isNaN.
  pose proof (Qeq_bool_sub_0 d1 d0) as S10.
  pose proof (Qeq_bool_sub_0 d0 d1) as S01.
  pose proof (Qeq_bool_sym d1 d0) as Sy.
  destruct (Qeq_bool d0 d1) eqn:E.
  - rewrite Sy in *. rewrite S10. simpl.
    rewrite andb_false_r. simpl.
    eexists. split; [reflexivity|]. lra.
  - pose proof (Qeq_bool_false_neq _ _ E) as N.
    rewrite Sy in *. rewrite S10, S01. simpl negb. rewrite andb_true_r.
    destruct (Qle_bool d1 d0) eqn:L; simpl;
      (eexists; split; [reflexivity|]; field; lra).
Qed.

(** Inverting what the scale produced gives the value back, when neither
    the domain nor the range is a single point. *)
Lemma lin_roundtrip (d0 d1 r0 r1 v : Q) :
  ~ d0 == d1 -> ~ r0 == r1 ->
  lin r0 r1 d0 d1 (lin d0 d1 r0 r1 v) == v.
Proof.
  intros Hd Hr. unfold lin at 1.
  destruct (Qeq_bool r0 r1) eqn:E.
  - apply Qeq_bool_iff in E. contradiction.
  - unfold lin. destruct (Qeq_bool d0 d1) eqn:F.
    + apply Qeq_bool_iff in F. contradiction.
    + field. split; lra.
Qed.

Lemma lin_proper (d0 d1 r0 r1 x y : Q) :
  x == y -> lin d0 d1 r0 r1 x == lin d0 d1 r0 r1 y.
Proof.
  intros H. unfold lin. destruct (Qeq_bool d0 d1); [reflexivity|].
  rewrite H. reflexivity.
Qed.

(** The scale is monotone when domain and range both ascend. *)
Lemma lin_monotone (d0 d1 r0 r1 x y : Q) :
  d0 <= d1 -> r0 <= r1 -> x <= y ->
  lin d0 d1 r0 r1 x <= lin d0 d1 r0 r1 y.
Proof.
  intros Hd Hr Hxy. unfold lin.
  destruct (Qeq_bool d0 d1) eqn:E; [lra|].
  apply Qeq_bool_false_neq in E.
  assert (Hpos : 0 < d1 - d0) by lra.
  assert (Ht : (x - d0) / (d1 - d0) <= (y - d0) / (d1 - d0)).
  { unfold Qdiv. apply Qmult_le_compat_r; [lra|].
    apply Qlt_le_weak, Qinv_lt_0_compat. exact Hpos. }
  assert (H0 : 0 <= ((y - d0) / (d1 - d0) - (x - d0) / (d1 - d0)) * (r1 - r0)).
  { apply Qmult_le_0_compat; lra. }
  lra.
Qed.

Lemma invert_fin (s : D3.Scale) (d0 d1 r0 r1 y : Q) :
  D3.domain s = (JS.Fin d0, JS.Fin d1) ->
  D3.range s = (JS.Fin r0, JS.Fin r1) ->
  exists q, D3.invert s (JS.Fin y) = JS.Fin q /\ q == lin r0 r1 d0 d1 y.
Proof.
  intros Hd Hr. unfold D3.invert. rewrite Hd, Hr. apply bimap_fin.
Qed.

Lemma call_fin (s : D3.Scale) (d0 d1 r0 r1 x : Q) :
  D3.domain s = (JS.Fin d0, JS.Fin d1) ->
  D3.range s = (JS.Fin r0, JS.Fin r1) ->
  exists q, D3.call s (JS.Fin x) = Some (JS.Fin q) /\ q == lin d0 d1 r0 r1 x.
Proof.
  intros Hd Hr. unfold D3.call. simpl. rewrite Hd, Hr.
  destruct (bimap_fin d0 d1 r0 r1 x) as [q [E Hq]].
  exists q. rewrite E. split; [reflexivity|exact Hq].
Qed.

(** [invertX] on a finite pixel, for a non-zero factor. *)
Lemma invertX_fin (t : D3.ZoomTransform) (r : Q) :
  ~ D3.k t == 0 ->
  D3.invertX t (JS.Fin r) = JS.Fin ((r - D3.tx t) / D3.k t).
Proof.
  intros Hk. unfold D3.invertX, JS.div, JS.sub.
  destruct (Qeq_bool (D3.k t) 0) eqn:E; [|reflexivity].
  apply Qeq_bool_iff in E. contradiction.
Qed.

(** The zoom behaviour only delivers factors of its scale extent. *)
Lemma constrain_scale_extent (req : D3.ZoomTransform) :
  (1 # 2) <= D3.k (D3.constrain_scale scaleExtent req) <= 5.
Proof.
  unfold D3.constrain_scale, scaleExtent. simpl.
  split.
  - apply Q.le_max_l.
  - apply Q.max_lub; [lra|]. apply Q.le_min_l.
Qed.

(* ===================================================================== *)
(** ** d3's min and max over finite values *)
(* ===================================================================== *)

Section MinMax.

Context {A : Type} (f : A -> JS.num).

Lemma min_fold_some (l : list A) (m : Q) :
  all_finite f l ->
  exists a,
    fold_left (fun acc d => D3.min_step acc (f d)) l (Some (JS.Fin m)) = Some (JS.Fin a)
    /\ a <= m.
Proof.
  revert m. induction l as [|e l IH]; intros m Hf.
  - exists m. split; [reflexivity|lra].
  - inversion Hf as [|? ? He Hl]; subst. simpl.
    destruct (f e) as [|v]; [contradiction|]. simpl.
    destruct (Qle_bool v m && negb (Qeq_bool v m)) eqn:C.
    + apply andb_true_iff in C. destruct C as [C _].
      apply Qle_bool_iff in C.
      destruct (IH v Hl) as [a [Ea La]]. exists a. split; [exact Ea|lra].
    + apply IH. exact Hl.
Qed.

Lemma max_fold_some (l : list A) (m : Q) :
  all_finite f l ->
  exists b,
    fold_left (fun acc d => D3.max_step acc (f d)) l (Some (JS.Fin m)) = Some (JS.Fin b)
    /\ m <= b.
Proof.
  revert m. induction l as [|e l IH]; intros m Hf.
  - exists m. split; [reflexivity|lra].
  - inversion Hf as [|? ? He Hl]; subst. simpl.
    destruct (f e) as [|v]; [contradiction|]. simpl.
    destruct (Qle_bool m v && negb (Qeq_bool m v)) eqn:C.
    + apply andb_true_iff in C. destruct C as [C _].
      apply Qle_bool_iff in C.
      destruct (IH v Hl) as [b [Eb Lb]]. exists b. split; [exact Eb|lra].
    + apply IH. exact Hl.
Qed.

(** Over a non-empty list of finite values, [min] and [max] are numbers
    and [min <= max]. *)
Lemma min_max_finite (l : list A) :
  l <> [] -> all_finite f l ->
  exists a b,
    D3.min l f = Some (JS.Fin a) /\ D3.max l f = Some (JS.Fin b) /\ a <= b.
Proof.
  intros Hne Hf. destruct l as [|e l]; [congruence|].
  inversion Hf as [|? ? He Hl]; subst.
  unfold D3.min, D3.max. simpl.
  destruct (f e) as [|v]; [contradiction|]. simpl.
  assert (Hv : Qle_bool v v = true) by (apply Qle_bool_iff; lra).
  rewrite Hv.
  destruct (min_fold_some l v Hl) as [a [Ea La]].
  destruct (max_fold_some l v Hl) as [b [Eb Lb]].
  exists a, b. repeat split; [exact Ea|exact Eb|lra].
Qed.

End MinMax.

(* ===================================================================== *)
(** ** The brush listener *)
(* ===================================================================== *)

Lemma brushed_unusable (xs : D3.Scale) (ev : BrushEvent) (d : Dom) (cs : Calls) :
  unusable (selection ev) = true ->
  brushed xs ev d cs = (set_handles d (map hide_handle (handles d)), cs).
Proof.
  unfold unusable, brushed. destruct (selection ev) as [[s0 s1]|]; [|reflexivity].
  intros H. rewrite H. reflexivity.
Qed.

Lemma brushed_usable (xs : D3.Scale) (ev : BrushEvent) (d : Dom) (cs : Calls)
    (s0 s1 : JS.num) :
  selection ev = Some (s0, s1) -> JS.isNaN s0 = false -> JS.isNaN s1 = false ->
  brushed xs ev d cs =
    (set_handles d (mapi_from (move_handle (s0, s1)) 0 (handles d)),
     match type ev with
     | End => cs ++ [(D3.invert xs s0, D3.invert xs s1)]
     | _ => cs
     end).
Proof.
  intros Hs H0 H1. unfold brushed. rewrite Hs, H0, H1. reflexivity.
Qed.

Lemma mapi_from_shown (sel : JS.num * JS.num) (l : list Handle) (i : nat) :
  Forall (fun h => display h = None) (mapi_from (move_handle sel) i l).
Proof.
  revert i. induction l as [|h l IH]; intros i; simpl; constructor.
  - reflexivity.
  - apply IH.
Qed.

Lemma mapi_from_datum (sel : JS.num * JS.num) (l : list Handle) (i : nat) :
  map datum (mapi_from (move_handle sel) i l) = map datum l.
Proof.
  revert i. induction l as [|h l IH]; intros i; simpl; [reflexivity|].
  rewrite IH. reflexivity.
Qed.

Lemma hide_all_hidden (l : list Handle) : Forall hidden (map hide_handle l).
Proof.
  induction l as [|h l IH]; simpl; constructor; [reflexivity|exact IH].
Qed.

(** A brush event never adds or removes a handle, nor changes which
    datum a handle carries. *)
Lemma brushed_datum (xs : D3.Scale) (ev : BrushEvent) (d : Dom) (cs : Calls) :
  map datum (handles (fst (brushed xs ev d cs))) = map datum (handles d).
Proof.
  unfold brushed. destruct (selection ev) as [[s0 s1]|].
  - destruct (JS.isNaN s0 || JS.isNaN s1); simpl.
    + rewrite map_map. reflexivity.
    + apply mapi_from_datum.
  - simpl. rewrite map_map. reflexivity.
Qed.

(** C6, as amended.  A brush event without a selection, or whose selection
    has a NaN bound, hides every handle ([display: none]) and does not
    invoke [onBrushDomainChange], whatever its type, the end event included.
    A selection of two numbers is not suppressed, collapsed or not: the
    handles are shown and an end event invokes the callback. *)
Theorem brushed_suppresses_unusable_selection
    (xs : D3.Scale) (ev : BrushEvent) (d : Dom) (cs : Calls) :
  (unusable (selection ev) = true ->
     Forall hidden (handles (fst (brushed xs ev d cs)))
     /\ length (handles (fst (brushed xs ev d cs))) = length (handles d)
     /\ snd (brushed xs ev d cs) = cs)
  /\ (forall a b : Q,
        selection ev = Some (JS.Fin a, JS.Fin b) ->
        Forall (fun h => display h = None) (handles (fst (brushed xs ev d cs)))
        /\ (type ev = End ->
            snd (brushed xs ev d cs)
            = cs ++ [(D3.invert xs (JS.Fin a), D3.invert xs (JS.Fin b))])).
Proof.
  split.
  - intros H. rewrite (brushed_unusable xs ev d cs H). simpl.
    split; [apply hide_all_hidden|].
    split; [apply length_map|reflexivity].
  - intros a b Hs.
    rewrite (brushed_usable xs ev d cs _ _ Hs eq_refl eq_refl). simpl.
    split; [apply mapi_from_shown|].
    intros Ht. rewrite Ht. reflexivity.
Qed.

(** An end event whose selection is [[NaN, 300]], on the mounted chart. *)
Lemma brushed_suppresses_unusable_selection_witness :
  unusable (selection (mkBrushEvent End (Some (JS.NaN, px 300)))) = true
  /\ Forall hidden
       (handles (fst (brushed scenarioScale
                              (mkBrushEvent End (Some (JS.NaN, px 300)))
                              (dom mountedChart) [])))
  /\ snd (brushed scenarioScale
                  (mkBrushEvent End (Some (JS.NaN, px 300)))
                  (dom mountedChart) []) = [].
Proof.
  split; [reflexivity|].
  destruct (brushed_suppresses_unusable_selection
              scenarioScale
              (mkBrushEvent End (Some (JS.NaN, px 300)))
              (dom mountedChart) []) as [H _].
  destruct (H eq_refl) as [Hh [_ Hc]].
  split; [exact Hh|exact Hc].
Defined.

(** C6, the claim as stated fails: an end event whose selection is
    collapsed ([low == high], both numbers) is degenerate, yet the two
    handles are shown and [onBrushDomainChange] is invoked. *)
Lemma collapsed_selection_is_emitted :
  degenerate (px 100, px 100) = true
  /\ map display
       (handles (fst (brushed scenarioScale (mkBrushEvent End (Some (px 100, px 100)))
                              (dom mountedChart) [])))
     = [None; None]
  /\ length (snd (brushed scenarioScale (mkBrushEvent End (Some (px 100, px 100)))
                          (dom mountedChart) [])) = 1%nat.
Proof.
  split; [reflexivity|]. split; vm_compute; reflexivity.
Qed.

(* ===================================================================== *)
(** ** Brush events on the component *)
(* ===================================================================== *)

Lemma brushEvent_frame (ev : BrushEvent) (c : Component) :
  hooks (brushEvent ev c) = hooks c
  /\ unmounted (brushEvent ev c) = unmounted c
  /\ brushListener (dom (brushEvent ev c)) = brushListener (dom c)
  /\ zoomListener (dom (brushEvent ev c)) = zoomListener (dom c)
  /\ map datum (handles (dom (brushEvent ev c))) = map datum (handles (dom c)).
Proof.
  unfold brushEvent. destruct (unmounted c) eqn:U; [tauto|].
  destruct (brushListener (dom c)) as [xs|] eqn:L; [|tauto].
  pose proof (brushed_datum xs ev (dom c) (calls c)) as Hd.
  destruct (brushed xs ev (dom c) (calls c)) as [d' cs'] eqn:B. simpl in *.
  assert (Hl : brushListener d' = brushListener (dom c)
               /\ zoomListener d' = zoomListener (dom c)).
  { unfold brushed in B. destruct (selection ev) as [[s0 s1]|].
    - destruct (JS.isNaN s0 || JS.isNaN s1); inversion B; subst; simpl; tauto.
    - inversion B; subst; simpl; tauto. }
  destruct Hl as [Hl Hz]. rewrite Hl, Hz, L. tauto.
Qed.

Lemma brushEvent_calls (ev : BrushEvent) (c : Component) (xs : D3.Scale) :
  unmounted c = false -> brushListener (dom c) = Some xs ->
  calls (brushEvent ev c) = snd (brushed xs ev (dom c) (calls c)).
Proof.
  intros U L. unfold brushEvent. rewrite U, L.
  destruct (brushed xs ev (dom c) (calls c)); reflexivity.
Qed.

(** The pointer moves of a gesture reach the listener as brush events: none
    of them invokes the callback. *)
Lemma moves_do_not_emit (moves : list (option (JS.num * JS.num))) (c : Component)
    (xs : D3.Scale) :
  unmounted c = false -> brushListener (dom c) = Some xs ->
  let c' := run (map BrushEv (map (mkBrushEvent Brush) moves)) c in
  calls c' = calls c /\ unmounted c' = false /\ brushListener (dom c') = Some xs.
Proof.
  revert c. induction moves as [|m moves IH]; intros c U L; simpl.
  - tauto.
  - pose proof (brushEvent_frame (mkBrushEvent Brush m) c) as [_ [Hu [Hl _]]].
    pose proof (brushEvent_calls (mkBrushEvent Brush m) c xs U L) as Hc.
    rewrite U in Hu. rewrite L in Hl.
    destruct (IH (brushEvent (mkBrushEvent Brush m) c) Hu Hl) as [H1 [H2 H3]].
    unfold run in *. rewrite H1, Hc. split; [|tauto].
    unfold brushed. simpl. destruct m as [[s0 s1]|]; [|reflexivity].
    destruct (JS.isNaN s0 || JS.isNaN s1); reflexivity.
Qed.

Lemma start_does_not_emit (start : option (JS.num * JS.num)) (c : Component)
    (xs : D3.Scale) :
  unmounted c = false -> brushListener (dom c) = Some xs ->
  let c' := brushEvent (mkBrushEvent Start start) c in
  calls c' = calls c /\ unmounted c' = false /\ brushListener (dom c') = Some xs.
Proof.
  intros U L. simpl.
  pose proof (brushEvent_frame (mkBrushEvent Start start) c) as [_ [Hu [Hl _]]].
  rewrite (brushEvent_calls _ c xs U L). rewrite Hu, Hl, U, L.
  split; [|tauto].
  unfold brushed. simpl. destruct start as [[s0 s1]|]; [|reflexivity].
  destruct (JS.isNaN s0 || JS.isNaN s1); reflexivity.
Qed.

Lemma run_app (a b : list Input) (c : Component) :
  run (a ++ b) c = run b (run a c).
Proof.
  unfold run. apply fold_left_app.
Qed.

Lemma gesture_run (start final : option (JS.num * JS.num))
    (moves : list (option (JS.num * JS.num))) (c : Component) :
  run (map BrushEv (gesture start moves final)) c
  = brushEvent (mkBrushEvent End final)
      (run (map BrushEv (map (mkBrushEvent Brush) moves))
           (brushEvent (mkBrushEvent Start start) c)).
Proof.
  unfold gesture. simpl map. rewrite map_app. simpl.
  change (run (BrushEv (mkBrushEvent Start start)
               :: map BrushEv (map (mkBrushEvent Brush) moves)
               ++ [BrushEv (mkBrushEvent End final)]) c)
    with (run (map BrushEv (map (mkBrushEvent Brush) moves)
               ++ [BrushEv (mkBrushEvent End final)])
              (brushEvent (mkBrushEvent Start start) c)).
  rewrite run_app. reflexivity.
Qed.


(** The listener attached to the mounted chart of the scenario. *)
Lemma mountedChart_listener :
  unmounted mountedChart = false
  /\ brushListener (dom mountedChart) = Some scenarioScale.
Proof.
  split; vm_compute; reflexivity.
Qed.



(* ===================================================================== *)
(** ** The scenario: domain [0, 1000] on 500 pixels *)
(* ===================================================================== *)

Lemma dispatch_app (xs : D3.Scale) (a b : list BrushEvent) (d : Dom) (cs : Calls) :
  dispatch xs (a ++ b) d cs
  = dispatch xs b (fst (dispatch xs a d cs)) (snd (dispatch xs a d cs)).
Proof.
  unfold dispatch. rewrite fold_left_app.
  destruct (fold_left (fun st ev => brushed xs ev (fst st) (snd st)) a (d, cs));
    reflexivity.
Qed.

Lemma dispatch_moves (xs : D3.Scale) (moves : list (option (JS.num * JS.num)))
    (d : Dom) (cs : Calls) :
  snd (dispatch xs (map (mkBrushEvent Brush) moves) d cs) = cs.
Proof.
  revert d cs. induction moves as [|m moves IH]; intros d cs; [reflexivity|].
  unfold dispatch in *. simpl.
  specialize (IH (fst (brushed xs (mkBrushEvent Brush m) d cs))
                 (snd (brushed xs (mkBrushEvent Brush m) d cs))).
  rewrite <- surjective_pairing in IH. rewrite IH.
  unfold brushed. simpl. destruct m as [[s0 s1]|]; [|reflexivity].
  destruct (JS.isNaN s0 || JS.isNaN s1); reflexivity.
Qed.

(** The scale of a pass without zoom, from the extent of the prices. *)
Lemma passScales_unzoomed (p : Props) (d : Dom) (dm : Dimensions) (a b : JS.num) :
  dimensions p = Some dm ->
  D3.min (series p) xAccessor = Some a ->
  D3.max (series p) xAccessor = Some b ->
  xScale (passScales p None d)
  = D3.mkScale (a, b) (left (margins p), (width dm - right (margins p))%num).
Proof.
  intros Hd Ha Hb. unfold passScales, getScales. rewrite Hd. simpl.
  rewrite Ha, Hb. reflexivity.
Qed.



(* ===================================================================== *)
(** ** Invalid geometry *)
(* ===================================================================== *)

(** C7, as amended.  A render with an empty series skips the whole pass:
    whatever the dimensions, the previous domain, the local selection and
    the zoom state, the second effect returns before it builds a scale or
    touches the tree, it invokes no callback and throws nothing, and the
    commit leaves the tree, the callback log and the error log as they
    were.  (Zero-size dimensions are not tested by the pass.) *)
Theorem empty_series_skips_render
    (p : Props) (other : bool) (c : Component)
    (prev local : option Arr) (zoom : option D3.ZoomTransform) :
  series p = [] ->
  renderPass p prev local zoom (dom c) (calls c) = (dom c, calls c, None)
  /\ dom (commit p other c) = dom c
  /\ calls (commit p other c) = calls c
  /\ errors (commit p other c) = errors c
  /\ unmounted (commit p other c) = unmounted c.
Proof.
  intros Hs.
  assert (Hp : forall pv lc zm,
             renderPass p pv lc zm (dom c) (calls c) = (dom c, calls c, None)).
  { intros pv lc zm. unfold renderPass. rewrite Hs. reflexivity. }
  split; [apply Hp|].
  unfold commit. destruct (unmounted c) eqn:U; [rewrite U; tauto|].
  rewrite Hp.
  match goal with
  | |- context [if ?b then _ else _] => destruct b
  end; simpl; rewrite ?U; tauto.
Qed.

(** The mounted chart rendered again with an empty series. *)
Lemma empty_series_skips_render_witness :
  series (mkProps [] (px 250) (Some scenarioDimensions) scenarioMargins
                  (Some domain_200_600)) = []
  /\ dom (commit (mkProps [] (px 250) (Some scenarioDimensions) scenarioMargins
                          (Some domain_200_600)) true mountedChart)
     = dom mountedChart.
Proof.
  split; [reflexivity|].
  exact (proj1 (proj2 (empty_series_skips_render
                         (mkProps [] (px 250) (Some scenarioDimensions)
                                  scenarioMargins (Some domain_200_600))
                         true mountedChart None None None eq_refl))).
Defined.

(** C7, the claim as stated fails: with a series and dimensions
    [{width: 0, height: 0}] the pass is not skipped.  The first commit
    builds the scales (the axis gets a scale whose range is [[0, 0]]),
    sizes the svg at 0 x 0, draws the area and the line and appends the
    two handles. *)
Lemma zero_size_is_rendered :
  svgSize (dom (commit zeroSizeProps false (initial (mkDimensions (px 0) (px 0)))))
  = Some (px 0, px 0)
  /\ option_map (fun a => D3.range (snd a))
       (xAxis (dom (commit zeroSizeProps false (initial (mkDimensions (px 0) (px 0))))))
     = Some (px 0, (px 0 - px 0)%num)
  /\ map datum
       (handles (dom (commit zeroSizeProps false (initial (mkDimensions (px 0) (px 0))))))
     = [W; E]
  /\ dom (commit zeroSizeProps false (initial (mkDimensions (px 0) (px 0))))
     <> dom (initial (mkDimensions (px 0) (px 0))).
Proof.
  split; [reflexivity|]. split; [reflexivity|]. split; [reflexivity|].
  intros E. apply (f_equal svgSize) in E. discriminate E.
Qed.

(* ===================================================================== *)
(** ** The first effect: local selection in sync with the brush domain *)
(* ===================================================================== *)

Lemma same_value_refl (a : JS.num) : JS.same_value a a = true.
Proof.
  destruct a as [|q]; simpl; [reflexivity|]. apply Qeq_bool_iff. reflexivity.
Qed.

Lemma isEqual_refl (a : option Arr) : isEqual a a = true.
Proof.
  destruct a as [x|]; simpl; [|reflexivity].
  rewrite Nat.eqb_refl. reflexivity.
Qed.



(* ===================================================================== *)
(** ** The handles of the brush *)
(* ===================================================================== *)

Lemma brush_move_datum (xs : D3.Scale) (sel : JS.num * JS.num) (d : Dom) (cs : Calls) :
  map datum (handles (fst (brush_move (brushed xs) sel d cs))) = map datum (handles d).
Proof.
  unfold brush_move.
  match goal with
  | |- context [brushed xs (mkBrushEvent Start (Some sel)) ?d0 cs] =>
      pose proof (brushed_datum xs (mkBrushEvent Start (Some sel)) d0 cs) as H1;
      destruct (brushed xs (mkBrushEvent Start (Some sel)) d0 cs) as [d1 c1]
  end.
  pose proof (brushed_datum xs (mkBrushEvent Brush (Some sel)) d1 c1) as H2.
  destruct (brushed xs (mkBrushEvent Brush (Some sel)) d1 c1) as [d2 c2].
  pose proof (brushed_datum xs (mkBrushEvent End (Some sel)) d2 c2) as H3.
  simpl in *. congruence.
Qed.

(** The enter selection is empty once the two handles exist: the join
    appends nothing and leaves the handles as they are. *)
Lemma enter_handles_idle (height : JS.num) (hs : list Handle) :
  map datum hs = [W; E] -> enter_handles height hs = hs.
Proof.
  destruct hs as [|h0 [|h1 [|h2 r]]]; simpl; intros H; try discriminate H.
  destruct h0 as [t0 ? ? ?], h1 as [t1 ? ? ?]. simpl in H.
  injection H as H0 H1. subst t0 t1. reflexivity.
Qed.

Lemma renderPass_handles (p : Props) (prev local : option Arr)
    (zoom : option D3.ZoomTransform) (d : Dom) (cs : Calls) :
  map datum (handles d) = [W; E] ->
  map datum (handles (fst (fst (renderPass p prev local zoom d cs)))) = [W; E].
Proof.
  intros H. unfold renderPass.
  destruct (series p) as [|e s]; [exact H|].
  match goal with
  | |- context [if ?b then _ else _] => destruct b
  end.
  - destruct local as [l|]; [|exact H].
    match goal with
    | |- context [brush_move (brushed ?xs) ?sel ?d2 cs] =>
        pose proof (brush_move_datum xs sel d2 cs) as Hm;
        destruct (brush_move (brushed xs) sel d2 cs) as [d3 c3]
    end.
    simpl in *. rewrite enter_handles_idle; congruence.
  - simpl. rewrite enter_handles_idle; exact H.
Qed.

Lemma step_handles (c : Component) (i : Input) :
  map datum (handles (dom c)) = [W; E] ->
  map datum (handles (dom (step c i))) = [W; E].
Proof.
  intros H. destruct i as [p other|ev|t]; simpl.
  - unfold commit. destruct (unmounted c); [exact H|].
    match goal with
    | |- context [if ?b then renderPass ?p ?pv ?lc ?zm ?d ?cs else _] =>
        destruct b;
        [pose proof (renderPass_handles p pv lc zm d cs H) as Hr;
         destruct (renderPass p pv lc zm d cs) as [[d' cs'] err]|]
    end; simpl in *; assumption.
  - destruct (brushEvent_frame ev c) as [_ [_ [_ [_ Hd]]]]. congruence.
  - unfold zoomEvent. destruct (unmounted c); [exact H|].
    destruct (zoomListener (dom c)) as [cl|]; [|exact H].
    destruct (zoomed cl _ (hooks c)) as [h' err]. exact H.
Qed.

Lemma run_handles (ins : list Input) (c : Component) :
  map datum (handles (dom c)) = [W; E] ->
  map datum (handles (dom (run ins c))) = [W; E].
Proof.
  revert c. induction ins as [|i ins IH]; intros c H; [exact H|].
  simpl. apply IH. apply step_handles. exact H.
Qed.

Lemma first_pass_appends_handles (rect : Dimensions) (p : Props) (other : bool) :
  series p <> [] ->
  map datum (handles (dom (commit p other (initial rect)))) = [W; E].
Proof.
  intros Hs. unfold commit, initial. simpl.
  unfold renderPass. destruct (series p) as [|e s]; [congruence|].
  destruct (brushDomain p); reflexivity.
Qed.

(** Whatever happens to the component, it has no handle yet or the two. *)
Lemma renderPass_none_or_two (p : Props) (prev local : option Arr)
    (zoom : option D3.ZoomTransform) (d : Dom) (cs : Calls) :
  handles d = [] ->
  map datum (handles (fst (fst (renderPass p prev local zoom d cs)))) = []
  \/ map datum (handles (fst (fst (renderPass p prev local zoom d cs)))) = [W; E].
Proof.
  intros H. unfold renderPass.
  destruct (series p) as [|e s]; [left; simpl; rewrite H; reflexivity|].
  match goal with
  | |- context [if ?b then _ else _] => destruct b
  end.
  - destruct local as [l|]; [|left; simpl; rewrite H; reflexivity].
    match goal with
    | |- context [brush_move (brushed ?xs) ?sel ?d2 cs] =>
        pose proof (brush_move_datum xs sel d2 cs) as Hm;
        destruct (brush_move (brushed xs) sel d2 cs) as [d3 c3]
    end.
    simpl in *. rewrite H in Hm. simpl in Hm.
    destruct (handles d3) as [|h r]; [|discriminate Hm].
    right. reflexivity.
  - right. simpl. rewrite H. reflexivity.
Qed.

Lemma step_none_or_two (c : Component) (i : Input) :
  map datum (handles (dom c)) = [] \/ map datum (handles (dom c)) = [W; E] ->
  map datum (handles (dom (step c i))) = []
  \/ map datum (handles (dom (step c i))) = [W; E].
Proof.
  intros [H|H]; [|right; apply step_handles; exact H].
  destruct i as [p other|ev|t]; simpl.
  - unfold commit. destruct (unmounted c); [left; exact H|].
    assert (H0 : handles (dom c) = [])
      by (destruct (handles (dom c)); [reflexivity|discriminate H]).
    match goal with
    | |- context [if ?b then renderPass ?p ?pv ?lc ?zm ?d ?cs else _] =>
        destruct b;
        [pose proof (renderPass_none_or_two p pv lc zm d cs H0) as Hr;
         destruct (renderPass p pv lc zm d cs) as [[d' cs'] err]|]
    end; simpl in *; [exact Hr|left; exact H].
  - destruct (brushEvent_frame ev c) as [_ [_ [_ [_ Hd]]]]. left. congruence.
  - unfold zoomEvent. destruct (unmounted c); [left; exact H|].
    destruct (zoomListener (dom c)) as [cl|]; [|left; exact H].
    destruct (zoomed cl _ (hooks c)) as [h' err]. left. exact H.
Qed.

Lemma run_none_or_two (ins : list Input) (c : Component) :
  map datum (handles (dom c)) = [] \/ map datum (handles (dom c)) = [W; E] ->
  map datum (handles (dom (run ins c))) = []
  \/ map datum (handles (dom (run ins c))) = [W; E].
Proof.
  revert c. induction ins as [|i ins IH]; intros c H; [exact H|].
  simpl. apply IH. apply step_none_or_two. exact H.
Qed.

(** C10.  Once the component has rendered a non-empty series, exactly two
    brush-handle paths exist, the first bound to [{type: 'w'}] and the
    second to [{type: 'e'}], after any further renders, brush events and
    zoom events: the first pass appends the two handles, and on a tree that
    has them the enter selection of the join is empty, so that a later pass
    appends nothing.  In no state does the component have one handle, or
    more than two. *)
Theorem two_handles_after_any_passes
    (rect : Dimensions) (p : Props) (other : bool) (ins : list Input) :
  series p <> [] ->
  handles (dom (initial rect)) = []
  /\ map datum (handles (dom (run (Render p other :: ins) (initial rect)))) = [W; E]
  /\ length (handles (dom (run (Render p other :: ins) (initial rect)))) = 2%nat
  /\ (forall h : JS.num,
        enter_handles h (handles (dom (run (Render p other :: ins) (initial rect))))
        = handles (dom (run (Render p other :: ins) (initial rect))))
  /\ (forall any : list Input,
        map datum (handles (dom (run any (initial rect)))) = []
        \/ map datum (handles (dom (run any (initial rect)))) = [W; E]).
Proof.
  intros Hs.
  assert (H : map datum (handles (dom (run (Render p other :: ins) (initial rect))))
              = [W; E]).
  { simpl. apply run_handles. apply first_pass_appends_handles. exact Hs. }
  split; [reflexivity|]. split; [exact H|]. split; [|split].
  - rewrite <- (length_map datum), H. reflexivity.
  - intros h. apply enter_handles_idle. exact H.
  - intros any. apply run_none_or_two. left. reflexivity.
Qed.

(** Renders, an end event and a zoom on the scenario. *)
Lemma two_handles_after_any_passes_witness :
  series (scenarioProps (Some domain_200_600)) <> []
  /\ map datum
       (handles (dom (run [Render (scenarioProps (Some domain_200_600)) false;
                           Render (scenarioProps (Some domain_200_600)) false;
                           BrushEv (mkBrushEvent End (Some (px 100, px 300)));
                           ZoomEv (D3.mkTransform 2 0 0);
                           Render (scenarioProps (Some domain_200_600)) false]
                          (initial scenarioDimensions))))
     = [W; E].
Proof.
  assert (Hs : series (scenarioProps (Some domain_200_600)) <> [])
    by (intros E; discriminate E).
  split; [exact Hs|].
  exact (proj1 (proj2 (two_handles_after_any_passes
                         scenarioDimensions (scenarioProps (Some domain_200_600)) false
                         [Render (scenarioProps (Some domain_200_600)) false;
                          BrushEv (mkBrushEvent End (Some (px 100, px 300)));
                          ZoomEv (D3.mkTransform 2 0 0);
                          Render (scenarioProps (Some domain_200_600)) false]
                         Hs))).
Defined.

(* ===================================================================== *)
(** ** The brush branch of the pass never meets an undefined selection *)
(* ===================================================================== *)

Lemma syncEffect_keeps_some (bd : option Arr) (l : Arr) :
  exists l', syncEffect bd (Some l) = Some l'.
Proof.
  unfold syncEffect. destruct bd as [b|]; [|eauto].
  destruct (negb (isEqual (Some b) (Some l))); eauto.
Qed.

Lemma syncEffect_some (b : Arr) (local : option Arr) :
  exists l', syncEffect (Some b) local = Some l'.
Proof.
  unfold syncEffect. destruct local as [l|]; simpl; [|eauto].
  destruct (negb _); eauto.
Qed.

(** The pass throws only in the brush branch, and only without a local
    selection. *)
Lemma renderPass_no_error (p : Props) (prev local : option Arr)
    (zoom : option D3.ZoomTransform) (d : Dom) (cs : Calls) :
  (forall b, prev = Some b -> exists l, local = Some l) ->
  snd (renderPass p prev local zoom d cs) = None.
Proof.
  intros H. unfold renderPass.
  destruct (series p) as [|e s]; [reflexivity|].
  destruct (brushDomain p) as [b|].
  - destruct (same_ref prev (Some b)) eqn:R.
    + destruct prev as [b0|]; [|discriminate R].
      destruct (H b0 eq_refl) as [l Hl]. rewrite Hl.
      match goal with
      | |- context [brush_move ?f ?sel ?d2 cs] => destruct (brush_move f sel d2 cs)
      end.
      reflexivity.
    + reflexivity.
  - reflexivity.
Qed.

Lemma commit_synced (p : Props) (other : bool) (c : Component) :
  synced c -> synced (commit p other c).
Proof.
  intros [U H]. unfold synced, commit. rewrite U.
  remember (match lastDeps (hooks c) with
            | Some ds => negb (same_ref (dep_brushDomain ds) (brushDomain p))
            | None => true
            end) as bdc eqn:Hbdc.
  remember (match lastDeps (hooks c) with
            | Some ds => negb (same_ref (dep_localSelection ds) (localSelection (hooks c)))
            | None => true
            end) as lc eqn:Hlc.
  match goal with
  | |- context [if ?b then renderPass ?p ?pv ?l ?zm ?d ?cs else _] =>
      pose proof (renderPass_no_error p pv l zm d cs H) as Hr;
      destruct b;
      [destruct (renderPass p pv l zm d cs) as [[d' cs'] err]; simpl in Hr; subst err|]
  end; simpl.
  - split; [reflexivity|]. intros b Hb.
    unfold usePrevious_effect in Hb. destruct bdc.
    + simpl. rewrite Hb. apply syncEffect_some.
    + destruct (H b Hb) as [l Hl]. rewrite Hl.
      destruct (false || lc); [apply syncEffect_keeps_some|eauto].
  - split; [reflexivity|]. intros b Hb.
    unfold usePrevious_effect in Hb. destruct bdc.
    + simpl. rewrite Hb. apply syncEffect_some.
    + destruct (H b Hb) as [l Hl]. rewrite Hl.
      destruct (false || lc); [apply syncEffect_keeps_some|eauto].
Qed.

Lemma step_synced (c : Component) (i : Input) : synced c -> synced (step c i).
Proof.
  intros S. destruct i as [p other|ev|t]; simpl.
  - apply commit_synced. exact S.
  - destruct S as [U H].
    destruct (brushEvent_frame ev c) as [Hh [Hu _]].
    unfold synced. rewrite Hh, Hu. split; assumption.
  - destruct S as [U H]. unfold synced, zoomEvent. rewrite U.
    destruct (zoomListener (dom c)) as [cl|]; [|split; assumption].
    unfold zoomed. destruct (zc_localSelection cl); simpl; split; auto.
Qed.

Lemma run_synced (ins : list Input) (c : Component) : synced c -> synced (run ins c).
Proof.
  revert c. induction ins as [|i ins IH]; intros c S; [exact S|].
  simpl. apply IH. apply step_synced. exact S.
Qed.

Lemma initial_synced (rect : Dimensions) : synced (initial rect).
Proof.
  split; [reflexivity|]. intros b Hb. discriminate Hb.
Qed.

(** C9.  In every state the component can reach from its mount, by any
    renders, brush events and zoom events: if the next render finds
    [brushDomain] defined and identical to the [previousDomain] that
    [usePrevious] returns, so that the pass enters the branch that calls
    [localSelection.map(xScale)], then [localSelection] is defined.  The
    pass therefore never throws there, and no commit unmounts the
    component. *)
Theorem brush_branch_has_local_selection
    (rect : Dimensions) (ins : list Input) (p : Props) (b : Arr) :
  brushDomain p = Some b ->
  same_ref (usePrevious_read (hooks (run ins (initial rect)))) (brushDomain p) = true ->
  (exists l, localSelection (hooks (run ins (initial rect))) = Some l)
  /\ (forall other d cs,
        snd (renderPass p (usePrevious_read (hooks (run ins (initial rect))))
                        (localSelection (hooks (run ins (initial rect))))
                        (currentZoomState (hooks (run ins (initial rect)))) d cs)
        = None
        /\ unmounted (commit p other (run ins (initial rect))) = false).
Proof.
  intros Hb Hr.
  pose proof (run_synced ins _ (initial_synced rect)) as S.
  split.
  - destruct S as [_ H]. unfold usePrevious_read in Hr. rewrite Hb in Hr.
    destruct (previousRef (hooks (run ins (initial rect)))) as [b0|] eqn:P;
      [|discriminate Hr].
    apply (H b0). reflexivity.
  - intros other d cs. split.
    + apply renderPass_no_error. destruct S as [_ H]. exact H.
    + destruct (commit_synced p other _ S) as [U _]. exact U.
Qed.

(** After the first commit with [[200, 600]], the next render enters the
    brush branch. *)
Lemma brush_branch_has_local_selection_witness :
  same_ref (usePrevious_read
              (hooks (run [Render (scenarioProps (Some domain_200_600)) false]
                          (initial scenarioDimensions))))
           (brushDomain (scenarioProps (Some domain_200_600))) = true
  /\ exists l,
       localSelection
         (hooks (run [Render (scenarioProps (Some domain_200_600)) false]
                     (initial scenarioDimensions))) = Some l.
Proof.
  split; [reflexivity|].
  exact (proj1 (brush_branch_has_local_selection
                  scenarioDimensions
                  [Render (scenarioProps (Some domain_200_600)) false]
                  (scenarioProps (Some domain_200_600)) domain_200_600
                  eq_refl eq_refl)).
Defined.

(* ===================================================================== *)
(** ** Order of the selections *)
(* ===================================================================== *)

Lemma ascending_finite (s : list ChartEntry) :
  ascending (map xAccessor s) -> all_finite xAccessor s.
Proof.
  induction s as [|e s IH]; intros H; [constructor|].
  simpl in H. destruct s as [|e' s'].
  - constructor; [exact H|constructor].
  - simpl in H. destruct H as [Hle Hr]. constructor.
    + unfold JS.le in Hle. destruct (xAccessor e); [contradiction|exact I].
    + apply IH. exact Hr.
Qed.

Lemma step_within_extent (c : Component) (i : Input) :
  within_extent (currentZoomState (hooks c)) ->
  within_extent (currentZoomState (hooks (step c i))).
Proof.
  intros H. destruct i as [p other|ev|t]; simpl.
  - unfold commit. destruct (unmounted c); [exact H|].
    match goal with
    | |- context [if ?b then renderPass ?p ?pv ?l ?zm ?d ?cs else _] =>
        destruct b; [destruct (renderPass p pv l zm d cs) as [[d' cs'] err]|]
    end; exact H.
  - destruct (brushEvent_frame ev c) as [Hh _]. rewrite Hh. exact H.
  - unfold zoomEvent. destruct (unmounted c); [exact H|].
    destruct (zoomListener (dom c)) as [cl|]; [|exact H].
    unfold zoomed. destruct (zc_localSelection cl); simpl;
      apply constrain_scale_extent.
Qed.

Lemma run_within_extent (ins : list Input) (c : Component) :
  within_extent (currentZoomState (hooks c)) ->
  within_extent (currentZoomState (hooks (run ins c))).
Proof.
  revert c. induction ins as [|i ins IH]; intros c H; [exact H|].
  simpl. apply IH. apply step_within_extent. exact H.
Qed.

Lemma syncEffect_ordered (bd local : option Arr) :
  (forall b, bd = Some b -> ordered (elements b)) ->
  (forall l, local = Some l -> ordered (elements l)) ->
  forall l, syncEffect bd local = Some l -> ordered (elements l).
Proof.
  intros Hb Hl l. unfold syncEffect. destruct bd as [b|]; [|apply Hl].
  destruct (negb (isEqual (Some b) local)); [apply Hb|apply Hl].
Qed.

Lemma step_local_ordered (c : Component) (i : Input) :
  ordered_input i -> local_ordered c -> local_ordered (step c i).
Proof.
  intros Hi H. destruct i as [p other|ev|t]; simpl in *.
  - unfold local_ordered, commit. destruct (unmounted c); [exact H|].
    match goal with
    | |- context [if ?b then renderPass ?p ?pv ?l ?zm ?d ?cs else _] =>
        destruct b; [destruct (renderPass p pv l zm d cs) as [[d' cs'] err]|]
    end; simpl;
      (match goal with
       | |- context [if ?b then syncEffect _ _ else _] => destruct b
       end; [apply syncEffect_ordered; assumption|exact H]).
  - destruct (brushEvent_frame ev c) as [Hh _]. unfold local_ordered.
    rewrite Hh. exact H.
  - unfold local_ordered, zoomEvent. destruct (unmounted c); [exact H|].
    destruct (zoomListener (dom c)) as [cl|]; [|exact H].
    unfold zoomed. destruct (zc_localSelection cl); simpl; exact H.
Qed.

Lemma run_local_ordered (ins : list Input) (c : Component) :
  Forall ordered_input ins -> local_ordered c -> local_ordered (run ins c).
Proof.
  revert c. induction ins as [|i ins IH]; intros c Hi H; [exact H|].
  inversion Hi; subst. simpl. apply IH; [assumption|].
  apply step_local_ordered; assumption.
Qed.

(** The horizontal scale of a pass ascends in domain and in range. *)
Lemma pass_xScale_ascending (p : Props) (zoom : option D3.ZoomTransform) (d : Dom) :
  ascending_geometry p ->
  within_extent zoom ->
  ascending_scale (xScale (passScales p zoom d)).
Proof.
  intros [dm [Hd [[Hne Hasc] Hm]]] Hz. unfold ascending_scale.
  destruct (min_max_finite xAccessor (series p) Hne (ascending_finite _ Hasc))
    as [a [b [Ha [Hb Hab]]]].
  unfold passScales, getScales. rewrite Hd, Ha, Hb. simpl JS.to_num.
  destruct (left (margins p)) as [|r0]; [contradiction|].
  destruct (width dm - right (margins p))%num as [|r1]; [contradiction|].
  simpl in Hm.
  destruct zoom as [t|]; simpl.
  - unfold within_extent, scaleExtent in Hz. simpl in Hz.
    assert (Hk : ~ D3.k t == 0) by lra.
    rewrite !(invertX_fin t _ Hk).
    set (base := D3.mkScale (JS.Fin a, JS.Fin b) (JS.Fin r0, JS.Fin r1)).
    destruct (invert_fin base a b r0 r1 ((r0 - D3.tx t) / D3.k t) eq_refl eq_refl)
      as [q0 [E0 H0]].
    destruct (invert_fin base a b r0 r1 ((r1 - D3.tx t) / D3.k t) eq_refl eq_refl)
      as [q1 [E1 H1]].
    rewrite E0, E1. exists q0, q1, r0, r1.
    repeat split; try assumption.
    rewrite H0, H1. apply lin_monotone; try assumption.
    unfold Qdiv. apply Qmult_le_compat_r; [lra|].
    apply Qlt_le_weak, Qinv_lt_0_compat. lra.
  - exists a, b, r0, r1. repeat split; assumption.
Qed.

(** An end event through an ascending scale emits an ordered pair. *)
Lemma ascending_scale_emits_ordered (xs : D3.Scale) (p1 p2 : Q) (d : Dom) (cs : Calls) :
  ascending_scale xs -> p1 <= p2 ->
  exists payload,
    snd (brushed xs (mkBrushEvent End (Some (JS.Fin p1, JS.Fin p2))) d cs)
    = cs ++ [payload]
    /\ ordered payload.
Proof.
  intros [d0 [d1 [r0 [r1 [Edom [Erng [Hdd Hrr]]]]]]] Hp.
  rewrite (brushed_usable xs (mkBrushEvent End (Some (JS.Fin p1, JS.Fin p2))) d cs
             (JS.Fin p1) (JS.Fin p2) eq_refl eq_refl eq_refl).
  simpl. eexists. split; [reflexivity|].
  destruct (invert_fin xs d0 d1 r0 r1 p1 Edom Erng) as [q1 [E1 H1]].
  destruct (invert_fin xs d0 d1 r0 r1 p2 Edom Erng) as [q2 [E2 H2]].
  unfold ordered. simpl. rewrite E1, E2. simpl. rewrite H1, H2.
  apply lin_monotone; assumption.
Qed.

(** The listener a pass leaves attached is the one it found or the one
    it attached, with the scale of the pass. *)
Lemma renderPass_listener (p : Props) (prev local : option Arr)
    (zoom : option D3.ZoomTransform) (d : Dom) (cs : Calls) :
  brushListener (fst (fst (renderPass p prev local zoom d cs))) = brushListener d
  \/ (series p <> []
      /\ brushListener (fst (fst (renderPass p prev local zoom d cs)))
         = Some (xScale (passScales p zoom d))).
Proof.
  unfold renderPass. destruct (series p) as [|e s] eqn:Es; [left; reflexivity|].
  match goal with
  | |- context [if ?b then _ else _] => destruct b
  end.
  - right. split; [intros E0; discriminate E0|].
    destruct local as [l|]; [|reflexivity].
    unfold brush_move, brushed. simpl.
    destruct (JS.isNaN _ || JS.isNaN _); reflexivity.
  - left. reflexivity.
Qed.

Lemma step_listener_ascending (c : Component) (i : Input) :
  ascending_input i ->
  within_extent (currentZoomState (hooks c)) ->
  listener_ascending c -> listener_ascending (step c i).
Proof.
  intros Hi Hz H. destruct i as [p other|ev|t]; simpl in *.
  - unfold listener_ascending, commit. destruct (unmounted c); [exact H|].
    match goal with
    | |- context [if ?b then renderPass ?p ?pv ?l ?zm ?d ?cs else _] =>
        destruct b;
        [pose proof (renderPass_listener p pv l zm d cs) as Hr;
         destruct (renderPass p pv l zm d cs) as [[d' cs'] err]|]
    end; simpl in *; [|exact H].
    intros xs Hxs. destruct Hr as [Hr|[Hne Hr]].
    + apply H. rewrite <- Hr. exact Hxs.
    + rewrite Hr in Hxs. injection Hxs as Hxs. subst xs.
      destruct Hi as [He|Hg]; [contradiction|].
      apply pass_xScale_ascending; assumption.
  - destruct (brushEvent_frame ev c) as [_ [_ [Hl _]]].
    unfold listener_ascending. rewrite Hl. exact H.
  - unfold listener_ascending, zoomEvent. destruct (unmounted c); [exact H|].
    destruct (zoomListener (dom c)) as [cl|]; [|exact H].
    destruct (zoomed cl _ (hooks c)) as [h' err]. exact H.
Qed.

Lemma run_listener_ascending (ins : list Input) (c : Component) :
  Forall ascending_input ins ->
  within_extent (currentZoomState (hooks c)) ->
  listener_ascending c -> listener_ascending (run ins c).
Proof.
  revert c. induction ins as [|i ins IH]; intros c Hi Hz H; [exact H|].
  inversion Hi; subst. simpl. apply IH; [assumption| |].
  - apply step_within_extent. exact Hz.
  - apply step_listener_ascending; assumption.
Qed.




(* ===================================================================== *)
(** ** Zoom: the selection is projected again *)
(* ===================================================================== *)

(** The horizontal scale of a pass is invertible when the prices and the
    horizontal range both span more than a point. *)
Lemma pass_xScale_invertible (p : Props) (dm : Dimensions)
    (zoom : option D3.ZoomTransform) (d : Dom) (a b r0 r1 : Q) :
  dimensions p = Some dm ->
  D3.min (series p) xAccessor = Some (JS.Fin a) ->
  D3.max (series p) xAccessor = Some (JS.Fin b) ->
  left (margins p) = JS.Fin r0 ->
  (width dm - right (margins p))%num = JS.Fin r1 ->
  ~ a == b -> ~ r0 == r1 ->
  within_extent zoom ->
  exists d0 d1,
    D3.domain (xScale (passScales p zoom d)) = (JS.Fin d0, JS.Fin d1)
    /\ D3.range (xScale (passScales p zoom d)) = (JS.Fin r0, JS.Fin r1)
    /\ ~ d0 == d1.
Proof.
  intros Hd Ha Hb Hl Hw Hab Hr Hz.
  unfold passScales, getScales. rewrite Hd, Ha, Hb, Hl, Hw. simpl JS.to_num.
  destruct zoom as [t|]; simpl.
  - unfold within_extent, scaleExtent in Hz. simpl in Hz.
    assert (Hk : ~ D3.k t == 0) by lra.
    rewrite !(invertX_fin t _ Hk).
    set (base := D3.mkScale (JS.Fin a, JS.Fin b) (JS.Fin r0, JS.Fin r1)).
    destruct (invert_fin base a b r0 r1 ((r0 - D3.tx t) / D3.k t) eq_refl eq_refl)
      as [q0 [E0 H0]].
    destruct (invert_fin base a b r0 r1 ((r1 - D3.tx t) / D3.k t) eq_refl eq_refl)
      as [q1 [E1 H1]].
    rewrite E0, E1. exists q0, q1.
    split; [reflexivity|]. split; [reflexivity|].
    intros Eq.
    assert (Hdiff : q1 - q0 == (b - a) / D3.k t).
    { rewrite H0, H1. unfold lin.
      destruct (Qeq_bool r0 r1) eqn:F.
      - apply Qeq_bool_iff in F. contradiction.
      - field. split; [exact Hk|lra]. }
    assert (Hba : b - a == (b - a) / D3.k t * D3.k t) by (field; exact Hk).
    rewrite <- Hdiff in Hba.
    assert (Hq : q1 - q0 == 0) by lra.
    rewrite Hq in Hba. apply Hab. lra.
  - exists a, b. repeat split. exact Hab.
Qed.

Lemma min_some_nonempty {A : Type} (l : list A) (f : A -> JS.num) (v : JS.num) :
  D3.min l f = Some v -> l <> [].
Proof.
  intros H E. subst l. discriminate H.
Qed.

(** The pass in its brush branch, on a tree with the two handles. *)
Lemma renderPass_branch (p : Props) (prev : option Arr) (l : Arr)
    (zoom : option D3.ZoomTransform) (d : Dom) (cs : Calls)
    (h0 h1 : Handle) (q1 q2 : Q) :
  series p <> [] ->
  brush_branch p prev = true ->
  handles d = [h0; h1] -> datum h0 = W -> datum h1 = E ->
  D3.call (xScale (passScales p zoom d)) (lo l) = Some (JS.Fin q1) ->
  D3.call (xScale (passScales p zoom d)) (hi l) = Some (JS.Fin q2) ->
  exists d',
    renderPass p prev (Some l) zoom d cs
    = (d', cs ++ [(D3.invert (xScale (passScales p zoom d)) (JS.Fin q1),
                   D3.invert (xScale (passScales p zoom d)) (JS.Fin q2))], None)
    /\ handles d'
       = [move_handle (JS.Fin q1, JS.Fin q2) 0 h0; move_handle (JS.Fin q1, JS.Fin q2) 1 h1]
    /\ brushListener d' = Some (xScale (passScales p zoom d))
    /\ zoomListener d' = Some (mkZoomClosure (Some l) (xScale (passScales p zoom d))).
Proof.
  intros Hs Hb Hh H0 H1 E1 E2.
  unfold renderPass. destruct (series p) as [|e s] eqn:Es; [congruence|].
  unfold brush_branch in Hb. rewrite Hb.
  rewrite E1, E2. simpl JS.to_num.
  unfold brush_move, brushed. simpl. rewrite Hh. simpl.
  unfold move_handle. simpl. rewrite H0, H1. simpl.
  eexists. split; [reflexivity|]. simpl. repeat split; reflexivity.
Qed.


Lemma scenario_geometry (bd : option Arr) : invertible_geometry (scenarioProps bd).
Proof.
  exists scenarioDimensions, (inject_Z 0), (inject_Z 1000), (inject_Z 0),
         (inject_Z 500 - inject_Z 0).
  repeat split; try reflexivity; intros E; vm_compute in E; discriminate E.
Qed.



(* ===================================================================== *)
(** ** Echo of an emitted domain *)
(* ===================================================================== *)

Lemma commit_hooks_eq (p : Props) (other : bool) (c : Component) :
  unmounted c = false -> hooks (commit p other c) = commit_hooks p (hooks c).
Proof.
  intros U. unfold commit, commit_hooks. rewrite U.
  match goal with
  | |- context [if ?b then renderPass ?p ?pv ?l ?zm ?d ?cs else _] =>
      destruct b; [destruct (renderPass p pv l zm d cs) as [[d' cs'] err]|]
  end; reflexivity.
Qed.

(** Outside the brush branch the pass invokes no callback and throws
    nothing. *)
Lemma renderPass_no_branch (p : Props) (prev local : option Arr)
    (zoom : option D3.ZoomTransform) (d : Dom) (cs : Calls) :
  brush_branch p prev = false ->
  exists d', renderPass p prev local zoom d cs = (d', cs, None).
Proof.
  intros Hb. unfold renderPass. destruct (series p) as [|e s]; [eauto|].
  unfold brush_branch in Hb. rewrite Hb. eauto.
Qed.

Lemma commit_no_branch (p : Props) (other : bool) (c : Component) :
  unmounted c = false ->
  brush_branch p (previousRef (hooks c)) = false ->
  calls (commit p other c) = calls c /\ unmounted (commit p other c) = false.
Proof.
  intros U Hb. unfold commit. rewrite U.
  match goal with
  | |- context [if ?b then renderPass ?p ?pv ?l ?zm ?d ?cs else _] =>
      destruct (renderPass_no_branch p pv l zm d cs Hb) as [d' Hr];
      destruct b; [rewrite Hr|]
  end; simpl; rewrite ?U; split; reflexivity.
Qed.

Lemma same_ref_refl (a : option Arr) : same_ref a a = true.
Proof.
  destruct a as [x|]; simpl; [apply Nat.eqb_refl|reflexivity].
Qed.

Lemma same_transform_refl (z : option D3.ZoomTransform) : same_transform z z = true.
Proof.
  destruct z as [t|]; simpl; [|reflexivity].
  assert (R : forall q, Qeq_bool q q = true) by (intros q; apply Qeq_bool_iff; reflexivity).
  rewrite !R. reflexivity.
Qed.

Lemma isEqual_false_ref (b : Arr) (local : option Arr) :
  isEqual (Some b) local = false -> same_ref local (Some b) = false.
Proof.
  destruct local as [l|]; simpl; [|reflexivity].
  intros H. apply orb_false_iff in H. destruct H as [H _].
  rewrite Nat.eqb_sym. exact H.
Qed.

Lemma commit_runs_pass (p : Props) (other : bool) (c : Component) :
  unmounted c = false ->
  match lastDeps (hooks c) with
  | Some ds => negb (same_ref (dep_localSelection ds) (localSelection (hooks c)))
  | None => true
  end = true ->
  calls (commit p other c)
  = snd (fst (renderPass p (previousRef (hooks c)) (localSelection (hooks c))
                         (currentZoomState (hooks c)) (dom c) (calls c))).
Proof.
  intros U Hl. unfold commit, usePrevious_read. rewrite U.
  match goal with
  | |- context [if ?b then renderPass ?p ?pv ?l ?zm ?d ?cs else _] =>
      replace b with true;
      [destruct (renderPass p pv l zm d cs) as [[d' cs'] err]; reflexivity|]
  end.
  rewrite Hl.
  destruct (lastDeps (hooks c)) as [ds|]; [|reflexivity].
  simpl. rewrite orb_true_r. reflexivity.
Qed.





(* ===================================================================== *)
(** ** Renders settle; the scale of the listener *)
(* ===================================================================== *)

(** A render requested by the parent settles after at most one further
    render: the fuel of [render] is never exhausted. *)
Lemma render_settles (p : Props) (other : bool) (c : Component) :
  exists c', render 2 p other c = Some c'.
Proof.
  unfold render. simpl.
  destruct (needs_render (commit p other c)) eqn:N1; [|eauto].
  destruct (needs_render (commit p false (commit p other c))) eqn:N2; [|eauto].
  exfalso.
  destruct (unmounted c) eqn:U.
  { unfold commit in N1. rewrite U in N1. unfold needs_render in N1.
    rewrite U in N1. discriminate N1. }
  set (c1 := commit p other c) in *.
  assert (U1 : unmounted c1 = false).
  { unfold needs_render in N1. destruct (unmounted c1); [discriminate N1|reflexivity]. }
  assert (U2 : unmounted (commit p false c1) = false).
  { unfold needs_render in N2.
    destruct (unmounted (commit p false c1)); [discriminate N2|reflexivity]. }
  pose proof (commit_hooks_eq p other c U) as H1. fold c1 in H1.
  pose proof (commit_hooks_eq p false c1 U1) as H2.
  unfold needs_render in N1, N2. rewrite U1 in N1. rewrite U2 in N2.
  rewrite H2 in N2. unfold commit_hooks in N2. simpl in N2.
  rewrite same_transform_refl in N2. rewrite orb_false_r in N2.
  rewrite H1 in N1. unfold commit_hooks in N1. simpl in N1.
  rewrite same_transform_refl in N1. rewrite orb_false_r in N1.
  assert (Hl1 : exists b, brushDomain p = Some b
                          /\ localSelection (hooks c1) = Some b).
  { rewrite H1. unfold commit_hooks. simpl.
    destruct (_ || _).
    - unfold syncEffect in *. destruct (brushDomain p) as [b|].
      + destruct (negb (isEqual (Some b) (localSelection (hooks c)))); [eauto|].
        rewrite same_ref_refl in N1. discriminate N1.
      + rewrite same_ref_refl in N1. discriminate N1.
    - rewrite same_ref_refl in N1. discriminate N1. }
  destruct Hl1 as [b [Hbd Hl1]].
  rewrite Hl1 in N2.
  destruct (_ || _) in N2.
  - unfold syncEffect in N2. rewrite Hbd, isEqual_refl in N2. simpl in N2.
    rewrite Nat.eqb_refl in N2. discriminate N2.
  - simpl in N2. rewrite Nat.eqb_refl in N2. discriminate N2.
Qed.

(** The scale a drag is inverted through is the one its listener closed
    over.  A pass that skips the brush branch draws with its own scale and
    leaves the listener of an earlier pass attached: here the axis shows
    the prices [[0, 2000]] while a drag to the pixels [[100, 300]] still
    emits [[200, 600]]. *)
Lemma listener_scale_can_be_stale :
  needs_render rescaledChart = false
  /\ option_map (fun a => D3.domain (snd a)) (xAxis (dom rescaledChart))
     = Some (px 0, px 2000)
  /\ brushListener (dom rescaledChart) = Some scenarioScale
  /\ exists payload,
       calls (brushEvent (mkBrushEvent End (Some (px 100, px 300))) rescaledChart)
       = calls rescaledChart ++ [payload]
       /\ pair_eq payload (px 200, px 600).
Proof.
  split; [vm_compute; reflexivity|].
  split; [vm_compute; reflexivity|].
  split; [vm_compute; reflexivity|].
  eexists. split; [vm_compute; reflexivity|].
  split; vm_compute; reflexivity.
Qed.

(* ===================================================================== *)
(** ** Further properties: the scales of a pass *)
(* ===================================================================== *)

Lemma min_fold_bounds {A : Type} (f : A -> JS.num) (l : list A) (m : Q) :
  all_finite f l ->
  exists a,
    fold_left (fun acc d => D3.min_step acc (f d)) l (Some (JS.Fin m)) = Some (JS.Fin a)
    /\ a <= m
    /\ Forall (fun e => exists v, f e = JS.Fin v /\ a <= v) l.
Proof.
  revert m. induction l as [|e l IH]; intros m Hf.
  - exists m. split; [reflexivity|]. split; [lra|constructor].
  - inversion Hf as [|? ? He Hl]; subst. simpl.
    destruct (f e) as [|v] eqn:Ev; [contradiction|]. simpl.
    destruct (Qle_bool v m && negb (Qeq_bool v m)) eqn:C.
    + apply andb_true_iff in C. destruct C as [C _].
      apply Qle_bool_iff in C.
      destruct (IH v Hl) as [a [Ea [La Fa]]]. exists a.
      split; [exact Ea|]. split; [lra|].
      constructor; [exists v; split; [exact Ev|exact La]|exact Fa].
    + destruct (IH m Hl) as [a [Ea [La Fa]]]. exists a.
      split; [exact Ea|]. split; [exact La|].
      constructor; [|exact Fa]. exists v. split; [exact Ev|].
      apply andb_false_iff in C. destruct C as [C|C].
      * destruct (Qlt_le_dec m v) as [Hlt|Hle]; [lra|].
        apply Qle_bool_iff in Hle. congruence.
      * apply negb_false_iff, Qeq_bool_iff in C. lra.
Qed.

Lemma max_fold_bounds {A : Type} (f : A -> JS.num) (l : list A) (m : Q) :
  all_finite f l ->
  exists b,
    fold_left (fun acc d => D3.max_step acc (f d)) l (Some (JS.Fin m)) = Some (JS.Fin b)
    /\ m <= b
    /\ Forall (fun e => exists v, f e = JS.Fin v /\ v <= b) l.
Proof.
  revert m. induction l as [|e l IH]; intros m Hf.
  - exists m. split; [reflexivity|]. split; [lra|constructor].
  - inversion Hf as [|? ? He Hl]; subst. simpl.
    destruct (f e) as [|v] eqn:Ev; [contradiction|]. simpl.
    destruct (Qle_bool m v && negb (Qeq_bool m v)) eqn:C.
    + apply andb_true_iff in C. destruct C as [C _].
      apply Qle_bool_iff in C.
      destruct (IH v Hl) as [b [Eb [Lb Fb]]]. exists b.
      split; [exact Eb|]. split; [lra|].
      constructor; [exists v; split; [exact Ev|exact Lb]|exact Fb].
    + destruct (IH m Hl) as [b [Eb [Lb Fb]]]. exists b.
      split; [exact Eb|]. split; [exact Lb|].
      constructor; [|exact Fb]. exists v. split; [exact Ev|].
      apply andb_false_iff in C. destruct C as [C|C].
      * destruct (Qlt_le_dec v m) as [Hlt|Hle]; [lra|].
        apply Qle_bool_iff in Hle. congruence.
      * apply negb_false_iff, Qeq_bool_iff in C. lra.
Qed.

(** [min] and [max] of a non-empty list of numbers bracket every value
    of the list. *)
Lemma min_max_bounds {A : Type} (f : A -> JS.num) (l : list A) :
  l <> [] -> all_finite f l ->
  exists a b,
    D3.min l f = Some (JS.Fin a) /\ D3.max l f = Some (JS.Fin b)
    /\ Forall (fun e => exists v, f e = JS.Fin v /\ a <= v <= b) l.
Proof.
  intros Hne Hf. destruct l as [|e l]; [congruence|].
  inversion Hf as [|? ? He Hl]; subst.
  unfold D3.min, D3.max. simpl.
  destruct (f e) as [|v] eqn:Ev; [contradiction|]. simpl.
  assert (Hv : Qle_bool v v = true) by (apply Qle_bool_iff; lra).
  rewrite Hv.
  destruct (min_fold_bounds f l v Hl) as [a [Ea [La Fa]]].
  destruct (max_fold_bounds f l v Hl) as [b [Eb [Lb Fb]]].
  exists a, b. split; [exact Ea|]. split; [exact Eb|].
  constructor.
  - exists v. split; [exact Ev|]. split; assumption.
  - rewrite Forall_forall in *. intros x Hx.
    destruct (Fa x Hx) as [w [Ew Hw]]. destruct (Fb x Hx) as [w' [Ew' Hw']].
    rewrite Ew in Ew'. injection Ew' as Ew'. subst w'.
    exists w. split; [exact Ew|]. split; assumption.
Qed.

(** The ends of the domain are sent to the ends of the range. *)
Lemma lin_ends (d0 d1 r0 r1 : Q) :
  ~ d0 == d1 ->
  lin d0 d1 r0 r1 d0 == r0 /\ lin d0 d1 r0 r1 d1 == r1.
Proof.
  intros H. unfold lin. destruct (Qeq_bool d0 d1) eqn:E.
  - apply Qeq_bool_iff in E. contradiction.
  - split; field; lra.
Qed.

(** A value of the domain is sent into the range. *)
Lemma lin_inside (d0 d1 r0 r1 v : Q) :
  d0 <= v <= d1 -> r0 <= r1 ->
  r0 <= lin d0 d1 r0 r1 v <= r1.
Proof.
  intros [H0 H1] Hr.
  destruct (Qeq_bool d0 d1) eqn:E.
  - unfold lin. rewrite E. lra.
  - apply Qeq_bool_false_neq in E.
    destruct (lin_ends d0 d1 r0 r1 E) as [L R].
    assert (Hd : d0 <= d1) by lra.
    pose proof (lin_monotone d0 d1 r0 r1 d0 v Hd Hr H0).
    pose proof (lin_monotone d0 d1 r0 r1 v d1 Hd Hr H1).
    lra.
Qed.



(** The scale descends when the domain ascends and the range descends. *)
Lemma lin_antitone (d0 d1 r0 r1 x y : Q) :
  d0 <= d1 -> r1 <= r0 -> x <= y ->
  lin d0 d1 r0 r1 y <= lin d0 d1 r0 r1 x.
Proof.
  intros Hd Hr Hxy. unfold lin.
  destruct (Qeq_bool d0 d1) eqn:E; [lra|].
  apply Qeq_bool_false_neq in E.
  assert (Hpos : 0 < d1 - d0) by lra.
  assert (Ht : (x - d0) / (d1 - d0) <= (y - d0) / (d1 - d0)).
  { unfold Qdiv. apply Qmult_le_compat_r; [lra|].
    apply Qlt_le_weak, Qinv_lt_0_compat. exact Hpos. }
  assert (H0 : 0 <= ((y - d0) / (d1 - d0) - (x - d0) / (d1 - d0)) * (r0 - r1)).
  { apply Qmult_le_0_compat; lra. }
  lra.
Qed.







(* ===================================================================== *)
(** ** Further properties: zoom events, errors, renders without a brush *)
(* ===================================================================== *)



Lemma commit_errors (p : Props) (other : bool) (c : Component) :
  synced c -> errors (commit p other c) = errors c.
Proof.
  intros [U H]. unfold commit. rewrite U.
  match goal with
  | |- context [if ?b then renderPass ?p ?pv ?l ?zm ?d ?cs else _] =>
      pose proof (renderPass_no_error p pv l zm d cs H) as Hr;
      destruct b;
      [destruct (renderPass p pv l zm d cs) as [[d' cs'] err]; simpl in Hr; subst err|]
  end; reflexivity.
Qed.

Lemma step_only_reference_errors (c : Component) (i : Input) :
  synced c ->
  Forall (fun e => e = ReferenceError "currentSelection") (errors c) ->
  Forall (fun e => e = ReferenceError "currentSelection") (errors (step c i)).
Proof.
  intros S H. destruct i as [p other|ev|t]; simpl.
  - rewrite (commit_errors p other c S). exact H.
  - unfold brushEvent. destruct (unmounted c); [exact H|].
    destruct (brushListener (dom c)) as [xs|]; [|exact H].
    destruct (brushed xs ev (dom c) (calls c)). exact H.
  - unfold zoomEvent. destruct (unmounted c); [exact H|].
    destruct (zoomListener (dom c)) as [cl|]; [|exact H].
    unfold zoomed. destruct (zc_localSelection cl); simpl; [|exact H].
    apply Forall_app. split; [exact H|]. constructor; [reflexivity|constructor].
Qed.

(** X6.  Whatever renders, brush events and zoom events reach the
    component after its mount, no effect ever throws (the component stays
    mounted), the stored zoom factor stays inside the scale extent, and the
    only error the component raises is the ReferenceError of the unbound
    [currentSelection] in [zoomed]. *)
Theorem only_zoomed_throws (rect : Dimensions) (ins : list Input) :
  unmounted (run ins (initial rect)) = false
  /\ within_extent (currentZoomState (hooks (run ins (initial rect))))
  /\ Forall (fun e => e = ReferenceError "currentSelection")
            (errors (run ins (initial rect))).
Proof.
  split; [|split].
  - destruct (run_synced ins _ (initial_synced rect)) as [U _]. exact U.
  - apply run_within_extent. exact I.
  - assert (G : forall c,
               synced c ->
               Forall (fun e => e = ReferenceError "currentSelection") (errors c) ->
               Forall (fun e => e = ReferenceError "currentSelection")
                      (errors (run ins c))).
    { induction ins as [|i ins IH]; intros c S H; [exact H|].
      simpl. apply IH; [apply step_synced; exact S|].
      apply step_only_reference_errors; assumption. }
    apply G; [apply initial_synced|constructor].
Qed.

(** Outside the brush branch the pass leaves the brush listener, the
    callback log and the two handles as they are, and draws the axis with
    its own scale. *)
Lemma renderPass_outside_branch (p : Props) (prev local : option Arr)
    (zoom : option D3.ZoomTransform) (d : Dom) (cs : Calls) :
  brush_branch p prev = false ->
  brushListener (fst (fst (renderPass p prev local zoom d cs))) = brushListener d
  /\ snd (fst (renderPass p prev local zoom d cs)) = cs
  /\ snd (renderPass p prev local zoom d cs) = None
  /\ (map datum (handles d) = [W; E] ->
      handles (fst (fst (renderPass p prev local zoom d cs))) = handles d)
  /\ (series p <> [] ->
      option_map snd (xAxis (fst (fst (renderPass p prev local zoom d cs))))
      = Some (xScale (passScales p zoom d))).
Proof.
  intros Hb. unfold renderPass. destruct (series p) as [|e s].
  - simpl. repeat split; try reflexivity. intros C. congruence.
  - unfold brush_branch in Hb. rewrite Hb. simpl.
    repeat split; try reflexivity.
    intros Hh. apply enter_handles_idle. exact Hh.
Qed.

Lemma commit_outside_branch (p : Props) (other : bool) (c : Component) :
  brush_branch p (previousRef (hooks c)) = false ->
  brushListener (dom (commit p other c)) = brushListener (dom c)
  /\ calls (commit p other c) = calls c
  /\ (map datum (handles (dom c)) = [W; E] ->
      handles (dom (commit p other c)) = handles (dom c)).
Proof.
  intros Hb. unfold commit, usePrevious_read. destruct (unmounted c); [tauto|].
  match goal with
  | |- context [if ?b then renderPass ?p ?pv ?l ?zm ?d ?cs else _] =>
      destruct (renderPass_outside_branch p pv l zm d cs Hb) as [H1 [H2 [_ [H4 _]]]];
      destruct b;
      [destruct (renderPass p pv l zm d cs) as [[d' cs'] err]|]
  end; simpl in *; tauto.
Qed.

(** X7.  A render whose [brushDomain] is undefined, or is not the very
    array of the previous render, redraws without touching the brush: the
    listener attached by an earlier pass, with the scale it closed over,
    stays attached, the two handles keep their position, and
    [onBrushDomainChange] is not invoked; when the pass runs, the axis is
    drawn with the scale of the new props. *)
Theorem redraw_outside_branch_keeps_listener
    (p : Props) (other : bool) (c : Component) :
  unmounted c = false ->
  brush_branch p (previousRef (hooks c)) = false ->
  brushListener (dom (commit p other c)) = brushListener (dom c)
  /\ calls (commit p other c) = calls c
  /\ unmounted (commit p other c) = false
  /\ (map datum (handles (dom c)) = [W; E] ->
      handles (dom (commit p other c)) = handles (dom c))
  /\ (series p <> [] ->
      option_map snd (xAxis (dom (commit p true c)))
      = Some (xScale (passScales p (currentZoomState (hooks c)) (dom c)))).
Proof.
  intros U Hb.
  destruct (commit_outside_branch p other c Hb) as [H1 [H2 H3]].
  destruct (commit_no_branch p other c U Hb) as [_ Hu].
  repeat split; try assumption.
  intros Hs. unfold commit, usePrevious_read. rewrite U.
  destruct (renderPass_outside_branch p (previousRef (hooks c))
              (localSelection (hooks c)) (currentZoomState (hooks c))
              (dom c) (calls c) Hb) as [_ [_ [_ [_ H5]]]].
  specialize (H5 Hs).
  replace (match lastDeps (hooks c) with Some _ => false | None => true end || true)
    with true by (destruct (lastDeps (hooks c)); reflexivity).
  simpl.
  destruct (renderPass p (previousRef (hooks c)) (localSelection (hooks c))
              (currentZoomState (hooks c)) (dom c) (calls c)) as [[d' cs'] err].
  exact H5.
Qed.

(** The mounted chart rendered with a wider series and a new array
    [[200, 600]]: the listener keeps the scale of the old series while
    the axis shows the new one. *)
Lemma redraw_outside_branch_keeps_listener_witness :
  brushListener (dom rescaledChart) = brushListener (dom mountedChart)
  /\ option_map snd (xAxis (dom rescaledChart))
     = Some (xScale (passScales
                       (mkProps widerSeries (px 250) (Some scenarioDimensions)
                                scenarioMargins (Some domain_200_600_again))
                       (currentZoomState (hooks mountedChart)) (dom mountedChart))).
Proof.
  destruct (redraw_outside_branch_keeps_listener
              (mkProps widerSeries (px 250) (Some scenarioDimensions)
                       scenarioMargins (Some domain_200_600_again))
              true mountedChart eq_refl eq_refl) as [H1 [_ [_ [_ H5]]]].
  split; [exact H1|]. apply H5. intros E. discriminate E.
Defined.

(** X8.  As long as no render passes a [brushDomain], the component never
    attaches a brush, never has a local selection and never invokes
    [onBrushDomainChange], whatever brush and zoom events arrive. *)
Theorem no_domain_no_brush (rect : Dimensions) (ins : list Input) :
  Forall without_domain ins ->
  brushListener (dom (run ins (initial rect))) = None
  /\ localSelection (hooks (run ins (initial rect))) = None
  /\ calls (run ins (initial rect)) = [].
Proof.
  assert (G : forall c,
             Forall without_domain ins ->
             brushListener (dom c) = None /\ localSelection (hooks c) = None
             /\ calls c = [] ->
             brushListener (dom (run ins c)) = None
             /\ localSelection (hooks (run ins c)) = None
             /\ calls (run ins c) = []).
  { induction ins as [|i ins IH]; intros c Hi H; [exact H|].
    inversion Hi as [|? ? Hw Hr]; subst. simpl. apply IH; [exact Hr|].
    destruct H as [Hl [Hs Hc]].
    destruct i as [p other|ev|t]; simpl in *.
    - assert (Hb : brush_branch p (previousRef (hooks c)) = false)
        by (unfold brush_branch; rewrite Hw; reflexivity).
      destruct (commit_outside_branch p other c Hb) as [H1 [H2 _]].
      rewrite H1, H2. split; [exact Hl|]. split; [|exact Hc].
      destruct (unmounted c) eqn:U.
      + unfold commit. rewrite U. exact Hs.
      + rewrite (commit_hooks_eq p other c U). unfold commit_hooks. simpl.
        rewrite Hw, Hs. simpl. destruct (_ || _); reflexivity.
    - unfold brushEvent. destruct (unmounted c); [tauto|]. rewrite Hl. tauto.
    - unfold zoomEvent. destruct (unmounted c); [tauto|].
      destruct (zoomListener (dom c)) as [cl|]; [|tauto].
      unfold zoomed. destruct (zc_localSelection cl); simpl; tauto. }
  intros Hi. apply G; [exact Hi|]. repeat split.
Qed.

(** Renders without a domain, a drag and a zoom. *)
Lemma no_domain_no_brush_witness :
  calls (run [Render (scenarioProps None) false;
              BrushEv (mkBrushEvent End (Some (px 100, px 300)));
              ZoomEv zoom_in_twice;
              Render (scenarioProps None) false]
             (initial scenarioDimensions)) = [].
Proof.
  refine (proj2 (proj2 (no_domain_no_brush scenarioDimensions _ _))).
  repeat constructor.
Defined.

Lemma syncEffect_source (bd local : option Arr) (b : Arr) :
  syncEffect bd local = Some b -> bd = Some b \/ local = Some b.
Proof.
  unfold syncEffect. destruct bd as [x|]; [|tauto].
  destruct (negb (isEqual (Some x) local)); tauto.
Qed.

Lemma commit_local_source (p : Props) (other : bool) (c : Component) (b : Arr) :
  localSelection (hooks (commit p other c)) = Some b ->
  brushDomain p = Some b \/ localSelection (hooks c) = Some b.
Proof.
  destruct (unmounted c) eqn:U.
  - unfold commit. rewrite U. tauto.
  - rewrite (commit_hooks_eq p other c U). unfold commit_hooks. simpl.
    destruct (_ || _); [apply syncEffect_source|tauto].
Qed.

Lemma step_keeps_local (c : Component) (i : Input) (l : Arr) :
  localSelection (hooks c) = Some l ->
  exists l', localSelection (hooks (step c i)) = Some l'.
Proof.
  intros H. destruct i as [p other|ev|t]; simpl.
  - destruct (unmounted c) eqn:U.
    + unfold commit. rewrite U. eauto.
    + rewrite (commit_hooks_eq p other c U). unfold commit_hooks. simpl.
      rewrite H. destruct (_ || _); [apply syncEffect_keeps_some|eauto].
  - destruct (brushEvent_frame ev c) as [Hh _]. rewrite Hh. eauto.
  - unfold zoomEvent. destruct (unmounted c); [eauto|].
    destruct (zoomListener (dom c)) as [cl|]; [|eauto].
    unfold zoomed. destruct (zc_localSelection cl); simpl; eauto.
Qed.

(** X9.  The local selection is only ever an array the parent passed as
    [brushDomain]: no brush event and no zoom event writes it (the one
    [setLocalSelection] of [zoomed] is never reached), and once it is set
    nothing clears it, not even a render without [brushDomain]. *)
Theorem local_selection_comes_from_parent (rect : Dimensions) (ins : list Input) :
  (forall b, localSelection (hooks (run ins (initial rect))) = Some b -> passed b ins)
  /\ (forall (more : list Input) (b : Arr),
        localSelection (hooks (run ins (initial rect))) = Some b ->
        exists b', localSelection (hooks (run more (run ins (initial rect)))) = Some b')
  /\ (forall ev, hooks (brushEvent ev (run ins (initial rect)))
                 = hooks (run ins (initial rect))).
Proof.
  split; [|split].
  - assert (G : forall c pre,
               (forall b, localSelection (hooks c) = Some b -> passed b pre) ->
               forall b, localSelection (hooks (run ins c)) = Some b ->
                         passed b (pre ++ ins)).
    { induction ins as [|i ins IH]; intros c pre H b Hb.
      - rewrite app_nil_r. apply H. exact Hb.
      - simpl in Hb.
        replace (pre ++ i :: ins) with ((pre ++ [i]) ++ ins)
          by (rewrite <- app_assoc; reflexivity).
        apply (IH (step c i)); [|exact Hb].
        intros b0 Hb0.
        assert (Hold : localSelection (hooks c) = Some b0 -> passed b0 (pre ++ [i])).
        { intros Hc. destruct (H b0 Hc) as [q [o [Hin Hq]]].
          exists q, o. split; [apply in_or_app; left; exact Hin|exact Hq]. }
        destruct i as [p other|ev|t]; simpl in Hb0.
        + destruct (commit_local_source p other c b0 Hb0) as [Hp|Hc]; [|auto].
          exists p, other. split; [apply in_or_app; right; left; reflexivity|exact Hp].
        + destruct (brushEvent_frame ev c) as [Hh _]. rewrite Hh in Hb0. auto.
        + apply Hold. unfold zoomEvent in Hb0. destruct (unmounted c); [exact Hb0|].
          destruct (zoomListener (dom c)) as [cl|]; [|exact Hb0].
          unfold zoomed in Hb0. destruct (zc_localSelection cl); exact Hb0. }
    intros b Hb. apply (G (initial rect) [] ); [|exact Hb].
    intros b0 H0. discriminate H0.
  - intros more. generalize (run ins (initial rect)).
    induction more as [|i more IH]; intros c b Hb; [eauto|].
    simpl. destruct (step_keeps_local c i b Hb) as [l' Hl'].
    apply (IH (step c i) l'). exact Hl'.
  - intros ev. destruct (brushEvent_frame ev (run ins (initial rect))) as [Hh _].
    exact Hh.
Qed.

(** The first effect reaches its fixed point in one application. *)
Lemma syncEffect_idempotent (bd local : option Arr) :
  syncEffect bd (syncEffect bd local) = syncEffect bd local.
Proof.
  unfold syncEffect. destruct bd as [b|]; [|reflexivity].
  destruct (isEqual (Some b) local) eqn:E; cbn [negb].
  - rewrite E. reflexivity.
  - rewrite isEqual_refl. reflexivity.
Qed.

Lemma second_commit_settles (p : Props) (other : bool) (c : Component) :
  needs_render (commit p other c) = true ->
  needs_render (commit p false (commit p other c)) = false.
Proof.
  intros N1.
  destruct (needs_render (commit p false (commit p other c))) eqn:N2; [|reflexivity].
  exfalso.
  destruct (unmounted c) eqn:U.
  { unfold commit in N1. rewrite U in N1. unfold needs_render in N1.
    rewrite U in N1. discriminate N1. }
  set (c1 := commit p other c) in *.
  assert (U1 : unmounted c1 = false).
  { unfold needs_render in N1. destruct (unmounted c1); [discriminate N1|reflexivity]. }
  assert (U2 : unmounted (commit p false c1) = false).
  { unfold needs_render in N2.
    destruct (unmounted (commit p false c1)); [discriminate N2|reflexivity]. }
  pose proof (commit_hooks_eq p other c U) as H1. fold c1 in H1.
  pose proof (commit_hooks_eq p false c1 U1) as H2.
  unfold needs_render in N1, N2. rewrite U1 in N1. rewrite U2 in N2.
  rewrite H2 in N2. unfold commit_hooks in N2. simpl in N2.
  rewrite same_transform_refl in N2. rewrite orb_false_r in N2.
  rewrite H1 in N1. unfold commit_hooks in N1. simpl in N1.
  rewrite same_transform_refl in N1. rewrite orb_false_r in N1.
  assert (Hl1 : exists b, brushDomain p = Some b
                          /\ localSelection (hooks c1) = Some b).
  { rewrite H1. unfold commit_hooks. simpl.
    destruct (_ || _).
    - unfold syncEffect in *. destruct (brushDomain p) as [b|].
      + destruct (negb (isEqual (Some b) (localSelection (hooks c)))); [eauto|].
        rewrite same_ref_refl in N1. discriminate N1.
      + rewrite same_ref_refl in N1. discriminate N1.
    - rewrite same_ref_refl in N1. discriminate N1. }
  destruct Hl1 as [b [Hbd Hl1]].
  rewrite Hl1 in N2.
  destruct (_ || _) in N2.
  - unfold syncEffect in N2. rewrite Hbd, isEqual_refl in N2. simpl in N2.
    rewrite Nat.eqb_refl in N2. discriminate N2.
  - simpl in N2. rewrite Nat.eqb_refl in N2. discriminate N2.
Qed.

(** X10.  No update loop.  Whatever the state and the props, a render
    requested by the parent is followed by at most one further render: the
    first effect is idempotent, after it a defined [brushDomain] equals the
    local selection by value, and the component is settled after the first
    commit or after the second. *)
Theorem render_settles_in_two_commits (p : Props) (other : bool) (c : Component) :
  (forall local, syncEffect (brushDomain p) (syncEffect (brushDomain p) local)
                 = syncEffect (brushDomain p) local)
  /\ (forall local b, isEqual (Some b) (syncEffect (Some b) local) = true)
  /\ exists c',
       render 2 p other c = Some c'
       /\ needs_render c' = false
       /\ (c' = commit p other c \/ c' = commit p false (commit p other c)).
Proof.
  split; [intros local; apply syncEffect_idempotent|]. split.
  - intros local b. unfold syncEffect.
    destruct (isEqual (Some b) local) eqn:E; cbn [negb]; [exact E|apply isEqual_refl].
  - unfold render. simpl.
    destruct (needs_render (commit p other c)) eqn:N1.
    + rewrite (second_commit_settles p other c N1).
      eexists. split; [reflexivity|]. split; [|right; reflexivity].
      apply second_commit_settles. exact N1.
    + eexists. split; [reflexivity|]. split; [exact N1|left; reflexivity].
Qed.

(* ===================================================================== *)
(** ** Further properties: positioning the brush *)
(* ===================================================================== *)

Lemma brushed_place (xs : D3.Scale) (t : EventType) (sel : JS.num * JS.num)
    (d : Dom) (cs : Calls) :
  fst (brushed xs (mkBrushEvent t (Some sel)) d cs) = set_handles d (place sel (handles d)).
Proof.
  unfold brushed, place. destruct sel as [s0 s1]. simpl.
  destruct (JS.isNaN s0 || JS.isNaN s1); reflexivity.
Qed.

Lemma brushed_calls (xs : D3.Scale) (t : EventType) (sel : JS.num * JS.num)
    (d : Dom) (cs : Calls) :
  snd (brushed xs (mkBrushEvent t (Some sel)) d cs)
  = if JS.isNaN (fst sel) || JS.isNaN (snd sel) then cs
    else match t with
         | End => cs ++ [(D3.invert xs (fst sel), D3.invert xs (snd sel))]
         | _ => cs
         end.
Proof.
  unfold brushed. destruct sel as [s0 s1]. simpl.
  destruct (JS.isNaN s0 || JS.isNaN s1); reflexivity.
Qed.

Lemma hide_handle_idem (h : Handle) : hide_handle (hide_handle h) = hide_handle h.
Proof. reflexivity. Qed.

Lemma move_handle_idem (sel : JS.num * JS.num) (i : nat) (h : Handle) :
  move_handle sel i (move_handle sel i h) = move_handle sel i h.
Proof. reflexivity. Qed.

Lemma place_idem (sel : JS.num * JS.num) (hs : list Handle) :
  place sel (place sel hs) = place sel hs.
Proof.
  unfold place. destruct (JS.isNaN (fst sel) || JS.isNaN (snd sel)).
  - rewrite map_map. apply map_ext. intros h. apply hide_handle_idem.
  - generalize 0%nat. induction hs as [|h hs IH]; intros i; simpl; [reflexivity|].
    rewrite IH. reflexivity.
Qed.

Lemma place_datum (sel : JS.num * JS.num) (hs : list Handle) :
  map datum (place sel hs) = map datum hs.
Proof.
  unfold place. destruct (JS.isNaN (fst sel) || JS.isNaN (snd sel)).
  - rewrite map_map. reflexivity.
  - apply mapi_from_datum.
Qed.

Lemma place_path_height (sel : JS.num * JS.num) (hs : list Handle) :
  map path_height (place sel hs) = map path_height hs.
Proof.
  unfold place. destruct (JS.isNaN (fst sel) || JS.isNaN (snd sel)).
  - rewrite map_map. reflexivity.
  - generalize 0%nat. induction hs as [|h hs IH]; intros i; simpl; [reflexivity|].
    rewrite IH. reflexivity.
Qed.

Lemma set_handles_twice (d : Dom) (a b : list Handle) :
  set_handles (set_handles d a) b = set_handles d b.
Proof. reflexivity. Qed.

(** [brush.move] leaves the tree as one placement of the handles does,
    and invokes the callback once unless a bound is NaN. *)
Lemma brush_move_place (xs : D3.Scale) (sel : JS.num * JS.num) (d : Dom) (cs : Calls) :
  brush_move (brushed xs) sel d cs
  = (set_handles d (place sel (handles d)),
     if JS.isNaN (fst sel) || JS.isNaN (snd sel) then cs
     else cs ++ [(D3.invert xs (fst sel), D3.invert xs (snd sel))]).
Proof.
  unfold brush_move.
  pose proof (brushed_place xs Start sel d cs) as P1.
  pose proof (brushed_calls xs Start sel d cs) as C1.
  destruct (brushed xs (mkBrushEvent Start (Some sel)) d cs) as [d1 c1].
  simpl in P1, C1. subst d1.
  pose proof (brushed_place xs Brush sel (set_handles d (place sel (handles d))) c1) as P2.
  pose proof (brushed_calls xs Brush sel (set_handles d (place sel (handles d))) c1) as C2.
  destruct (brushed xs (mkBrushEvent Brush (Some sel))
                    (set_handles d (place sel (handles d))) c1) as [d2 c2].
  simpl in P2, C2. subst d2.
  rewrite place_idem in *.
  rewrite (surjective_pairing (brushed xs _ _ c2)).
  rewrite brushed_place, brushed_calls. simpl. rewrite place_idem.
  subst c2 c1. destruct (JS.isNaN (fst sel) || JS.isNaN (snd sel)); reflexivity.
Qed.

Lemma passScales_rect (p : Props) (zoom : option D3.ZoomTransform) (d d' : Dom) :
  boundingRect d' = boundingRect d -> passScales p zoom d' = passScales p zoom d.
Proof.
  intros H. unfold passScales. rewrite H. reflexivity.
Qed.

(** The pass in closed form, on a tree that has the two handles. *)
Lemma renderPass_closed (p : Props) (prev local : option Arr)
    (zoom : option D3.ZoomTransform) (d : Dom) (cs : Calls) (e : ChartEntry)
    (s : list ChartEntry) :
  series p = e :: s ->
  map datum (handles d) = [W; E] ->
  snd (renderPass p prev local zoom d cs) = None ->
  let dim := match dimensions p with Some dm => dm | None => boundingRect d end in
  let xs := xScale (passScales p zoom d) in
  let ys := yScale (passScales p zoom d) in
  fst (fst (renderPass p prev local zoom d cs))
  = mkDom (boundingRect d)
          (Some (width dim, height dim))
          (Some (map (fun e => (D3.call xs (xAccessor e),
                                D3.call ys (JS.Fin 0),
                                D3.call ys (yAccessor e))) (series p)))
          (Some (D3.call xs (current p), height dim))
          (Some ((height dim - bottom (margins p))%num, xs))
          (Some (mkZoomClosure local xs))
          (if brush_branch p prev then Some xs else brushListener d)
          (match local with
           | Some l =>
               if brush_branch p prev
               then place (JS.to_num (D3.call xs (lo l)), JS.to_num (D3.call xs (hi l)))
                          (handles d)
               else handles d
           | None => handles d
           end).
Proof.
  intros Es Hh Herr. simpl.
  unfold renderPass in *. rewrite Es in Herr |- *.
  fold (brush_branch p prev) in *.
  destruct (brush_branch p prev).
  - destruct local as [l|]; [|discriminate Herr].
    rewrite brush_move_place. simpl.
    rewrite enter_handles_idle by (rewrite place_datum; exact Hh).
    reflexivity.
  - simpl. rewrite enter_handles_idle by exact Hh.
    destruct local; reflexivity.
Qed.

(** X11.  Drawing is idempotent.  On a tree that has the two handles, a
    pass that did not throw, run again with the same props, previous
    domain, local selection and zoom state, leaves the tree exactly as the
    first run left it (svg size, area, current-price line, axis, listeners,
    handles), whatever the callback log. *)
Theorem renderPass_is_idempotent
    (p : Props) (prev local : option Arr) (zoom : option D3.ZoomTransform)
    (d : Dom) (cs cs' : Calls) :
  map datum (handles d) = [W; E] ->
  snd (renderPass p prev local zoom d cs) = None ->
  fst (fst (renderPass p prev local zoom
                       (fst (fst (renderPass p prev local zoom d cs))) cs'))
  = fst (fst (renderPass p prev local zoom d cs)).
Proof.
  intros Hh Herr.
  destruct (series p) as [|e s] eqn:Es.
  { unfold renderPass. rewrite Es. simpl. rewrite ?Es. reflexivity. }
  pose proof (renderPass_closed p prev local zoom d cs e s Es Hh Herr) as H1.
  simpl in H1.
  set (d1 := fst (fst (renderPass p prev local zoom d cs))) in *.
  assert (Hr : boundingRect d1 = boundingRect d) by (rewrite H1; reflexivity).
  assert (Hh1 : map datum (handles d1) = [W; E]).
  { unfold d1. apply renderPass_handles. exact Hh. }
  assert (Herr1 : snd (renderPass p prev local zoom d1 cs') = None).
  { unfold renderPass. rewrite Es.
    fold (brush_branch p prev).
    destruct (brush_branch p prev) eqn:B.
    - destruct local as [l|].
      + rewrite brush_move_place. reflexivity.
      + unfold renderPass in Herr. rewrite Es in Herr.
        fold (brush_branch p prev) in Herr. rewrite B in Herr. discriminate Herr.
    - reflexivity. }
  pose proof (renderPass_closed p prev local zoom d1 cs' e s Es Hh1 Herr1) as H2.
  simpl in H2. rewrite H2.
  rewrite (passScales_rect p zoom d d1 Hr). rewrite Hr.
  rewrite H1. simpl.
  destruct (brush_branch p prev); destruct local as [l|];
    rewrite ?place_idem; reflexivity.
Qed.

(** The mounted chart drawn again. *)
Lemma renderPass_is_idempotent_witness :
  fst (fst (renderPass (scenarioProps (Some domain_200_600)) (Some domain_200_600)
                       (Some domain_200_600) None
                       (fst (fst (renderPass (scenarioProps (Some domain_200_600))
                                             (Some domain_200_600) (Some domain_200_600)
                                             None (dom mountedChart) [])))
                       []))
  = fst (fst (renderPass (scenarioProps (Some domain_200_600)) (Some domain_200_600)
                         (Some domain_200_600) None (dom mountedChart) [])).
Proof.
  apply (renderPass_is_idempotent
           (scenarioProps (Some domain_200_600)) (Some domain_200_600)
           (Some domain_200_600) None (dom mountedChart) [] []);
    vm_compute; reflexivity.
Defined.

Lemma call_nan (xs : D3.Scale) (x : JS.num) :
  JS.isNaN x = true -> JS.to_num (D3.call xs x) = JS.NaN.
Proof.
  intros H. unfold D3.call. rewrite H. reflexivity.
Qed.

(** X12.  A local selection with a NaN bound (as [parseFloat] of an empty
    input gives) does not break the pass that positions the brush: the
    scale answers [undefined], [brush.move] turns it into NaN, [brushed]
    meets its guard: the two handles are hidden, [onBrushDomainChange] is
    not invoked and nothing is thrown. *)
Theorem nan_local_selection_hides_brush
    (p : Props) (prev : option Arr) (l : Arr) (zoom : option D3.ZoomTransform)
    (d : Dom) (cs : Calls) :
  series p <> [] ->
  brush_branch p prev = true ->
  map datum (handles d) = [W; E] ->
  JS.isNaN (lo l) || JS.isNaN (hi l) = true ->
  snd (fst (renderPass p prev (Some l) zoom d cs)) = cs
  /\ snd (renderPass p prev (Some l) zoom d cs) = None
  /\ Forall hidden (handles (fst (fst (renderPass p prev (Some l) zoom d cs))))
  /\ brushListener (fst (fst (renderPass p prev (Some l) zoom d cs)))
     = Some (xScale (passScales p zoom d)).
Proof.
  intros Hs Hb Hh Hn.
  unfold renderPass. destruct (series p) as [|e s]; [congruence|].
  fold (brush_branch p prev). rewrite Hb.
  rewrite brush_move_place.
  set (xs := xScale (passScales p zoom d)).
  assert (Hsel : JS.isNaN (fst (JS.to_num (D3.call xs (lo l)),
                                JS.to_num (D3.call xs (hi l))))
                 || JS.isNaN (snd (JS.to_num (D3.call xs (lo l)),
                                   JS.to_num (D3.call xs (hi l)))) = true).
  { simpl. apply orb_true_iff in Hn. destruct Hn as [Hn|Hn].
    - rewrite (call_nan xs _ Hn). reflexivity.
    - rewrite (call_nan xs _ Hn). apply orb_true_r. }
  rewrite Hsel. simpl.
  rewrite enter_handles_idle by (rewrite place_datum; exact Hh).
  unfold place. rewrite Hsel.
  repeat split; try reflexivity. apply hide_all_hidden.
Qed.

(** The mounted chart with the local selection [[NaN, 600]]. *)
Lemma nan_local_selection_hides_brush_witness :
  snd (fst (renderPass (scenarioProps (Some domain_200_600)) (Some domain_200_600)
                       (Some (mkArr 5 JS.NaN (px 600))) None (dom mountedChart) []))
  = []
  /\ Forall hidden
       (handles (fst (fst (renderPass (scenarioProps (Some domain_200_600))
                                      (Some domain_200_600)
                                      (Some (mkArr 5 JS.NaN (px 600))) None
                                      (dom mountedChart) [])))).
Proof.
  destruct (nan_local_selection_hides_brush
              (scenarioProps (Some domain_200_600)) (Some domain_200_600)
              (mkArr 5 JS.NaN (px 600)) None (dom mountedChart) [])
    as [H1 [_ [H3 _]]].
  - intros E. discriminate E.
  - reflexivity.
  - vm_compute. reflexivity.
  - reflexivity.
  - split; [exact H1|exact H3].
Defined.



(* ===================================================================== *)
(** ** Further properties: the outline of the handles *)
(* ===================================================================== *)

Lemma brushed_path_height (xs : D3.Scale) (ev : BrushEvent) (d : Dom) (cs : Calls) :
  map path_height (handles (fst (brushed xs ev d cs))) = map path_height (handles d).
Proof.
  destruct ev as [t [sel|]].
  - rewrite brushed_place. simpl. apply place_path_height.
  - unfold brushed. simpl. rewrite map_map. reflexivity.
Qed.

Lemma renderPass_path_height (p : Props) (prev local : option Arr)
    (zoom : option D3.ZoomTransform) (d : Dom) (cs : Calls) :
  map datum (handles d) = [W; E] ->
  map path_height (handles (fst (fst (renderPass p prev local zoom d cs))))
  = map path_height (handles d).
Proof.
  intros H. unfold renderPass.
  destruct (series p) as [|e s]; [reflexivity|].
  fold (brush_branch p prev).
  destruct (brush_branch p prev).
  - destruct local as [l|]; [|reflexivity].
    rewrite brush_move_place. simpl.
    rewrite enter_handles_idle by (rewrite place_datum; exact H).
    apply place_path_height.
  - simpl. rewrite enter_handles_idle by exact H. reflexivity.
Qed.

Lemma step_path_height (c : Component) (i : Input) :
  map datum (handles (dom c)) = [W; E] ->
  map path_height (handles (dom (step c i))) = map path_height (handles (dom c)).
Proof.
  intros H. destruct i as [p other|ev|t]; simpl.
  - unfold commit. destruct (unmounted c); [reflexivity|].
    match goal with
    | |- context [if ?b then renderPass ?p ?pv ?lc ?zm ?d ?cs else _] =>
        destruct b;
        [pose proof (renderPass_path_height p pv lc zm d cs H) as Hr;
         destruct (renderPass p pv lc zm d cs) as [[d' cs'] err]|]
    end; simpl in *; [exact Hr|reflexivity].
  - unfold brushEvent. destruct (unmounted c); [reflexivity|].
    destruct (brushListener (dom c)) as [xs|]; [|reflexivity].
    pose proof (brushed_path_height xs ev (dom c) (calls c)) as Hb.
    destruct (brushed xs ev (dom c) (calls c)) as [d' cs']. exact Hb.
  - unfold zoomEvent. destruct (unmounted c); [reflexivity|].
    destruct (zoomListener (dom c)) as [cl|]; [|reflexivity].
    destruct (zoomed cl _ (hooks c)) as [h' err]. reflexivity.
Qed.

(** X14.  The outline of the handles is drawn once.  The first pass
    appends the two handles with the outline [brushHandlePath(height)] of
    its own height; the join is enter-only, so no later render, whatever its
    [dimensions], draws the outline again: the handles keep the height of
    the first pass. *)
Theorem handle_outline_keeps_first_height
    (rect : Dimensions) (p : Props) (other : bool) (ins : list Input) :
  series p <> [] ->
  map path_height (handles (dom (run (Render p other :: ins) (initial rect))))
  = [passHeight p (dom (initial rect)); passHeight p (dom (initial rect))].
Proof.
  intros Hs. simpl run.
  assert (H1 : map path_height (handles (dom (commit p other (initial rect))))
               = [passHeight p (dom (initial rect)); passHeight p (dom (initial rect))]).
  { unfold commit, initial, passHeight. simpl.
    unfold renderPass. destruct (series p) as [|e s]; [congruence|].
    destruct (brushDomain p); reflexivity. }
  pose proof (first_pass_appends_handles rect p other Hs) as Hd.
  revert H1 Hd. generalize (commit p other (initial rect)).
  induction ins as [|i ins IH]; intros c H1 Hd; [exact H1|].
  simpl. apply IH.
  - rewrite step_path_height; assumption.
  - apply step_handles. exact Hd.
Qed.

(** The scenario, 300 high, rendered again 900 high. *)
Lemma handle_outline_keeps_first_height_witness :
  map path_height
      (handles (dom (run [Render (scenarioProps (Some domain_200_600)) false;
                          Render (mkProps scenarioSeries (px 250)
                                          (Some (mkDimensions (px 500) (px 900)))
                                          scenarioMargins (Some domain_200_600))
                                 true]
                         (initial scenarioDimensions))))
  = [px 300; px 300].
Proof.
  apply (handle_outline_keeps_first_height
           scenarioDimensions (scenarioProps (Some domain_200_600)) false
           [Render (mkProps scenarioSeries (px 250)
                            (Some (mkDimensions (px 500) (px 900)))
                            scenarioMargins (Some domain_200_600))
                   true]).
  intros E. discriminate E.
Defined.
